(** * EKF_SLAM: the SE(2) algebra of turtlelib and the EKF predict/update engine

    A shallow embedding of [turtlelib/src/se2d.cpp] and of the [Slam] node's
    [EKF_Slam_predict] / [EKF_Slam_update].

    Scalars: every C++ [double] is read as a real number ([R]) with exact
    arithmetic; [std::sin], [std::cos], [std::sqrt] are the functions of the
    same name on [R].  Equalities that the program can only reach "up to
    floating tolerance" are therefore stated as exact equalities of reals.
    Integers ([int marker_id]) are read as [Z]. *)

From Stdlib Require Import Reals Lra Lia ZArith Bool Arith List.
Import ListNotations.

Open Scope R_scope.

(** ** <cmath> *)

(** [std::atan2(y, x)] on reals, by the sign cases of the C standard
    (principal value in [-pi, pi], [atan2(0, 0) = 0]). *)
Definition atan2 (y x : R) : R :=
  if Rlt_dec 0 x then atan (y / x)
  else if Rlt_dec x 0 then
    (if Rle_dec 0 y then atan (y / x) + PI else atan (y / x) - PI)
  else if Rlt_dec 0 y then PI / 2
  else if Rlt_dec y 0 then - PI / 2
  else 0.

(** ** turtlelib *)

Module turtlelib.

(** [struct Vector2D { double x; double y; }] *)
Record Vector2D : Type := mkVector2D { vec_x : R; vec_y : R }.

(** [struct Point2D { double x; double y; }] *)
Record Point2D : Type := mkPoint2D { pt_x : R; pt_y : R }.

(** [struct Twist2D { double omega; double x; double y; }] *)
Record Twist2D : Type := mkTwist2D { omega : R; tw_x : R; tw_y : R }.

(** [class Transform2D]: the two private members used by se2d.cpp. *)
Record Transform2D : Type := mkTransform2D { trans2d : Vector2D; rot2d : R }.

(** Value-initialised members: [trans2d()] is [{0,0}], [rot2d()] is [0.0]. *)
Definition Vector2D_zero : Vector2D := mkVector2D 0 0.

(** [Transform2D::Transform2D()] *)
Definition Transform2D_identity : Transform2D :=
  mkTransform2D Vector2D_zero 0.

(** [Transform2D::Transform2D(Vector2D trans)] *)
Definition Transform2D_of_trans (trans : Vector2D) : Transform2D :=
  mkTransform2D trans 0.

(** [Transform2D::Transform2D(double radians)] *)
Definition Transform2D_of_rot (radians : R) : Transform2D :=
  mkTransform2D Vector2D_zero radians.

(** [Transform2D::Transform2D(Vector2D trans, double radians)] *)
Definition Transform2D_of_both (trans : Vector2D) (radians : R) : Transform2D :=
  mkTransform2D trans radians.

(** [Point2D Transform2D::operator()(Point2D p) const] *)
Definition apply_point (T : Transform2D) (p : Point2D) : Point2D :=
  mkPoint2D (vec_x (trans2d T) + pt_x p) (vec_y (trans2d T) + pt_y p).

(** [Vector2D Transform2D::operator()(Vector2D v) const] *)
Definition apply_vector (T : Transform2D) (v : Vector2D) : Vector2D :=
  mkVector2D
    (vec_x v * cos (rot2d T) - vec_y v * sin (rot2d T) + vec_x (trans2d T))
    (vec_x v * sin (rot2d T) + vec_y v * cos (rot2d T) + vec_y (trans2d T)).

(** [Twist2D Transform2D::operator()(Twist2D v) const] *)
Definition apply_twist (T : Transform2D) (v : Twist2D) : Twist2D :=
  mkTwist2D
    (omega v)
    (omega v * vec_y (trans2d T) + tw_x v * cos (rot2d T) - tw_y v * sin (rot2d T))
    (- omega v * vec_x (trans2d T) + tw_x v * sin (rot2d T) + tw_y v * cos (rot2d T)).

(** [Transform2D Transform2D::inv() const] *)
Definition inv (T : Transform2D) : Transform2D :=
  mkTransform2D
    (mkVector2D
       (- vec_x (trans2d T) * cos (rot2d T) - vec_y (trans2d T) * sin (rot2d T))
       (- vec_y (trans2d T) * cos (rot2d T) + vec_x (trans2d T) * sin (rot2d T)))
    (- rot2d T).

(** [Transform2D & Transform2D::operator*=(const Transform2D & rhs)].
    The three assignments run in source order: [rot2d] is overwritten first,
    and the two translation lines read the overwritten value.  [rhs] is an
    object other than [*this], as it is in [operator*], whose left operand is
    passed by value. *)
Definition mul_assign (lhs rhs : Transform2D) : Transform2D :=
  let rot2d' := rot2d lhs + rot2d rhs in
  let x' := vec_x (trans2d rhs) * cos rot2d' - vec_y (trans2d rhs) * sin rot2d'
            + vec_x (trans2d lhs) in
  let y' := vec_x (trans2d rhs) * sin rot2d' + vec_y (trans2d rhs) * cos rot2d'
            + vec_y (trans2d lhs) in
  mkTransform2D (mkVector2D x' y') rot2d'.

(** [Transform2D operator*(Transform2D lhs, const Transform2D & rhs)] *)
Definition mul (lhs rhs : Transform2D) : Transform2D := mul_assign lhs rhs.

(** [Vector2D Transform2D::translation() const] *)
Definition translation (T : Transform2D) : Vector2D :=
  mkVector2D (vec_x (trans2d T)) (vec_y (trans2d T)).

(** [double Transform2D::rotation() const] *)
Definition rotation (T : Transform2D) : R := rot2d T.

(** What the SE(2) action on a point is: rotate by the transform's angle,
    then translate.  Used only to state what [apply_point] is compared to. *)
Definition se2_action (T : Transform2D) (p : Point2D) : Point2D :=
  mkPoint2D
    (pt_x p * cos (rot2d T) - pt_y p * sin (rot2d T) + vec_x (trans2d T))
    (pt_x p * sin (rot2d T) + pt_y p * cos (rot2d T) + vec_y (trans2d T)).

(** The half-open interval (-pi, pi]. *)
Definition in_mpi_pi (a : R) : Prop := - PI < a <= PI.

(** Modelled from the spec: [normalize_angle] is declared in
    turtlelib/geometry2d.hpp, which is not among the sources; only its test
    (tests/test_geometry2.cpp) is.  The spec: "any angle outside (-pi, pi] is
    wrapped into that range; normalization of exactly pi and -pi must be stable
    (both remain themselves, not just one)".

    [wrap_angle] is the wrapping: it subtracts the multiple of 2*pi that
    lands in (-pi, pi]. *)
Definition wrap_angle (rad : R) : R :=
  rad - 2 * PI * IZR (1 - up ((PI - rad) / (2 * PI))).

(** Modelled from the spec: [normalize_angle] (turtlelib/geometry2d.hpp, not
    among the sources) keeps -pi as it is, as the spec and the test
    [normalize_angle(-PI) == -PI] require, and wraps every other angle. *)
Definition normalize_angle (rad : R) : R :=
  if Req_EM_T rad (- PI) then - PI else wrap_angle rad.

(** Modelled from the spec: [almost_equal] is declared in
    turtlelib/geometry2d.hpp, which is not among the sources.  The spec: a
    "tolerance-based near-equality test, not exact equality".  The tolerance
    is not given by the spec and is the parameter [epsilon]. *)
Definition almost_equal (epsilon d1 d2 : R) : bool :=
  if Rlt_dec (Rabs (d1 - d2)) epsilon then true else false.

End turtlelib.

(** ** The Slam node: EKF predict and update *)

Module Slam.
Import turtlelib.

(** [constexpr int MAX_OBSTACLES = 30;] *)
Definition MAX_OBSTACLES : nat := 30.

(** [constexpr int STATE_SIZE = MAX_OBSTACLES * 2 + 3;] *)
Definition STATE_SIZE : nat := MAX_OBSTACLES * 2 + 3.

(** [arma::vec] and [arma::mat]: dense arrays read by index.  The dimension
    is not part of the type; an operation that sums over an index takes the
    length of that index as its first argument.  Entries at indices outside
    the dimensions carry no meaning. *)
Definition vec : Type := nat -> R.
Definition mat : Type := nat -> nat -> R.

Fixpoint sum_n (n : nat) (f : nat -> R) : R :=
  match n with
  | O => 0
  | S m => sum_n m f + f m
  end.

Definition vzeros : vec := fun _ => 0.
Definition mzeros : mat := fun _ _ => 0.

(** [arma::eye] *)
Definition eye : mat := fun i j => if Nat.eqb i j then 1 else 0.

(** [v(i) = x] and [M(i, j) = x] *)
Definition vset (v : vec) (i : nat) (x : R) : vec :=
  fun k => if Nat.eqb k i then x else v k.
Definition mset (M : mat) (i j : nat) (x : R) : mat :=
  fun a b => if Nat.eqb a i && Nat.eqb b j then x else M a b.

Definition vadd (u v : vec) : vec := fun i => u i + v i.
Definition vsub (u v : vec) : vec := fun i => u i - v i.
Definition madd (A B : mat) : mat := fun i j => A i j + B i j.
Definition msub (A B : mat) : mat := fun i j => A i j - B i j.

(** [A.t()] *)
Definition mtrans (A : mat) : mat := fun i j => A j i.

(** [A * B], [p] the number of columns of [A] (and rows of [B]) *)
Definition mmul (p : nat) (A B : mat) : mat :=
  fun i j => sum_n p (fun k => A i k * B k j).

(** [A * v], [p] the number of columns of [A] *)
Definition mvmul (p : nat) (A : mat) (v : vec) : vec :=
  fun i => sum_n p (fun k => A i k * v k).

(** The two-element vector [{a, b}] *)
Definition vec2 (a b : R) : vec :=
  fun i => match i with O => a | S O => b | _ => 0 end.

(** [S.i()] of a 2x2 matrix: the inverse; Armadillo throws when the matrix is
    singular, which is [None] here. *)
Definition inv2 (S : mat) : option mat :=
  let det := S 0%nat 0%nat * S 1%nat 1%nat - S 0%nat 1%nat * S 1%nat 0%nat in
  if Req_EM_T det 0 then None
  else Some (fun i j =>
    match i, j with
    | O, O => S 1%nat 1%nat / det
    | O, S O => - S 0%nat 1%nat / det
    | S O, O => - S 1%nat 0%nat / det
    | S O, S O => S 0%nat 0%nat / det
    | _, _ => 0
    end).

(** The members set by the constructor [Slam()]. *)

(** [covar(i, i) = 1e9] for [3 <= i < STATE_SIZE], zero elsewhere. *)
Definition covar_init : mat :=
  fun i j => if Nat.eqb i j && Nat.leb 3 i && Nat.ltb i STATE_SIZE
             then 1000000000 else 0.

(** [Q_bar(0,0) = Q_bar(1,1) = Q_bar(2,2) = 0.1], zero elsewhere. *)
Definition Q_bar : mat :=
  mset (mset (mset mzeros 0 0 (1/10)) 1 1 (1/10)) 2 2 (1/10).

(** [v_t(0) = v_t(1) = 0.1] *)
Definition v_t : vec := vset (vset vzeros 0 (1/10)) 1 (1/10).

(** [R(0,0) = R(1,1) = 0.1] *)
Definition R_noise : mat := mset (mset mzeros 0 0 (1/10)) 1 1 (1/10).

Section Estimator.

(** The tolerance of [almost_equal] (see [turtlelib.almost_equal]). *)
Variable epsilon : R.

(** [EKF_Slam_predict], first half: the mean update.  The assignments to
    [state(1)], [state(2)], [state(0)] run in source order on the same
    vector. *)
Definition predict_mean (state : vec) (twist : Twist2D) : vec :=
  if almost_equal epsilon (omega twist) 0 then
    let state := vset state 1 (state 1%nat + tw_x twist * cos (state 0%nat)) in
    let state := vset state 2 (state 2%nat + tw_x twist * sin (state 0%nat)) in
    state
  else
    let state :=
      vset state 1
        (state 1%nat
         + (tw_x twist / omega twist)
           * (sin (state 0%nat + omega twist) - sin (state 0%nat))) in
    let state :=
      vset state 2
        (state 2%nat
         + (tw_x twist / omega twist)
           * (- cos (state 0%nat + omega twist) + cos (state 0%nat))) in
    let state := vset state 0 (state 0%nat + omega twist) in
    state.

(** [EKF_Slam_predict], second half: the matrix [A_t], computed from the
    state vector as the mean update left it. *)
Definition predict_jacobian (state : vec) (twist : Twist2D) : mat :=
  let A_t := mzeros in
  if almost_equal epsilon (omega twist) 0 then
    let A_t := mset A_t 1 0 (- tw_x twist * sin (state 0%nat)) in
    let A_t := mset A_t 2 0 (tw_x twist * cos (state 0%nat)) in
    madd eye A_t
  else
    let A_t :=
      mset A_t 1 0
        ((tw_x twist / omega twist)
         * (cos (state 0%nat + omega twist) - cos (state 0%nat))) in
    let A_t :=
      mset A_t 2 0
        ((tw_x twist / omega twist)
         * (sin (state 0%nat + omega twist) - sin (state 0%nat))) in
    madd eye A_t.

(** [void EKF_Slam_predict(arma::vec & state, arma::mat & covar,
                           const Twist2D & twist)] *)
Definition EKF_Slam_predict (state : vec) (covar : mat) (twist : Twist2D)
  : vec * mat :=
  let state := predict_mean state twist in
  let A_t := predict_jacobian state twist in
  (state,
   madd (mmul STATE_SIZE (mmul STATE_SIZE A_t covar) (mtrans A_t)) Q_bar).

(** [const auto marker_index = marker_id * 2 + 3;] on mathematical integers
    (a product that overflows [int] is outside every index range anyway). *)
Definition marker_index (marker_id : Z) : Z := (marker_id * 2 + 3)%Z.

(** Both [state(marker_index)] and [state(marker_index + 1)] are elements of
    the state vector. *)
Definition index_ok (idx : Z) : bool :=
  (0 <=? idx)%Z && (idx + 1 <? Z.of_nat STATE_SIZE)%Z.

(** The block [if (state(marker_index) == 0 && state(marker_index + 1) == 0)]
    of [EKF_Slam_update]; [i] is [marker_index]. *)
Definition init_landmark (state : vec) (i : nat) (r phi : R) : vec :=
  if Req_EM_T (state i) 0 then
    if Req_EM_T (state (i + 1)%nat) 0 then
      let state := vset state i (state 1%nat + r * cos (phi + state 0%nat)) in
      let state :=
        vset state (i + 1) (state 2%nat + r * sin (phi + state 0%nat)) in
      state
    else state
  else state.

Definition delta_x (state : vec) (i : nat) : R := state i - state 1%nat.
Definition delta_y (state : vec) (i : nat) : R :=
  state (i + 1)%nat - state 2%nat.

(** [d]: the squared distance. *)
Definition sq_dist (state : vec) (i : nat) : R :=
  delta_x state i ^ 2 + delta_y state i ^ 2.

(** [arma::vec z_hat = {std::sqrt(d),
      turtlelib::normalize_angle(std::atan2(delta_y, delta_x) - state(0))};] *)
Definition z_hat (state : vec) (i : nat) : vec :=
  vec2 (sqrt (sq_dist state i))
       (normalize_angle
          (atan2 (delta_y state i) (delta_x state i) - state 0%nat)).

(** The measurement Jacobian [H], its entries written in source order. *)
Definition jacobian_H (state : vec) (i : nat) : mat :=
  let dx := delta_x state i in
  let dy := delta_y state i in
  let d := sq_dist state i in
  let H := mzeros in
  let H := mset H 1 0 (-1) in
  let H := mset H 0 1 (- dx / sqrt d) in
  let H := mset H 0 2 (- dy / sqrt d) in
  let H := mset H 1 1 (dy / d) in
  let H := mset H 1 2 (- dx / d) in
  let H := mset H 0 i (dx / sqrt d) in
  let H := mset H 0 (i + 1) (dy / sqrt d) in
  let H := mset H 1 i (- dy / d) in
  let H := mset H 1 (i + 1) (dx / d) in
  H.

(** [z - z_hat], the residual that the gain multiplies. *)
Definition residual (state : vec) (z : vec) (i : nat) : vec :=
  vsub z (z_hat state i).

(** The innovation covariance [H * covar * H.t() + R]. *)
Definition innovation_cov (H covar : mat) : mat :=
  madd (mmul STATE_SIZE (mmul STATE_SIZE H covar) (mtrans H)) R_noise.

(** The gain [covar * H.t() * Si], [Si] the inverted innovation covariance. *)
Definition kalman_gain (H covar Si : mat) : mat :=
  mmul 2 (mmul STATE_SIZE covar (mtrans H)) Si.

(** Lines 386-416 of the node: measurement model, Kalman gain, state and
    covariance update.  [None] when [.i()] throws.  With [d = 0] the program
    divides by zero and its doubles leave the real numbers; that case is
    [None] as well. *)
Definition kalman_step (state : vec) (covar : mat) (z : vec) (i : nat)
  : option (vec * mat) :=
  if Req_EM_T (sq_dist state i) 0 then None
  else
    let H := jacobian_H state i in
    match inv2 (innovation_cov H covar) with
    | None => None
    | Some Si =>
        let K := kalman_gain H covar Si in
        let state' := vadd state (mvmul 2 K (residual state z i)) in
        let covar' := mmul STATE_SIZE (msub eye (mmul 2 K H)) covar in
        Some (state', covar')
    end.

(** The range and bearing computed from the marker position. *)
Definition range_of (marker_x marker_y : R) : R :=
  sqrt (marker_x ^ 2 + marker_y ^ 2).
Definition bearing_of (marker_x marker_y : R) : R := atan2 marker_y marker_x.

(** [arma::vec z = {r, phi};  z += v_t;] *)
Definition measurement (marker_x marker_y : R) : vec :=
  vadd (vec2 (range_of marker_x marker_y) (bearing_of marker_x marker_y)) v_t.

(** [void EKF_Slam_update(arma::vec & state, arma::mat & covar,
       const double & marker_x, const double & marker_y,
       const int & marker_id)].
    An element access outside the vector is [None]. *)
Definition EKF_Slam_update (state : vec) (covar : mat)
  (marker_x marker_y : R) (marker_id : Z) : option (vec * mat) :=
  let r := range_of marker_x marker_y in
  let phi := bearing_of marker_x marker_y in
  let z := measurement marker_x marker_y in
  let idx := marker_index marker_id in
  if index_ok idx then
    let i := Z.to_nat idx in
    let state := init_landmark state i r phi in
    kalman_step state covar z i
  else None.

(** The bearing residual that [EKF_Slam_update] multiplies by the gain. *)
Definition bearing_residual (state : vec) (marker_x marker_y : R)
  (marker_id : Z) : R :=
  let i := Z.to_nat (marker_index marker_id) in
  residual
    (init_landmark state i (range_of marker_x marker_y)
       (bearing_of marker_x marker_y))
    (measurement marker_x marker_y) i 1%nat.

(** A call on the estimator, and a sequence of calls run in order on the
    pair (state, covar); a failing update stops the run. *)
Inductive ekf_call : Type :=
| Predict (twist : Twist2D)
| Update (marker_x marker_y : R) (marker_id : Z).

Definition run_call (c : ekf_call) (st : vec * mat) : option (vec * mat) :=
  match c with
  | Predict twist => Some (EKF_Slam_predict (fst st) (snd st) twist)
  | Update mx my id => EKF_Slam_update (fst st) (snd st) mx my id
  end.

Fixpoint run_calls (cs : list ekf_call) (st : vec * mat)
  : option (vec * mat) :=
  match cs with
  | nil => Some st
  | (c :: cs')%list =>
      match run_call c st with
      | None => None
      | Some st' => run_calls cs' st'
      end
  end.

End Estimator.

(** [symmetric n M]: the [n] x [n] matrix [M] equals its transpose. *)
Definition symmetric (n : nat) (M : mat) : Prop :=
  forall i j, (i < n)%nat -> (j < n)%nat -> M i j = M j i.

(** The loop of the constructor on the zero-filled member [covar]:
    [for (int i = 3; i < STATE_SIZE; i++) { covar(i, i) = 1e9; }] *)
Definition covar_constructed : mat :=
  fold_left (fun covar i => mset covar i i 1000000000)
    (seq 3 (STATE_SIZE - 3)) mzeros.

(** [Transform2D map_tf {{state(1), state(2)}, state(0)};] of
    [map_tf_broadcaster]: the estimated robot pose as a transform. *)
Definition map_tf (state : vec) : Transform2D :=
  Transform2D_of_both (mkVector2D (state 1%nat) (state 2%nat)) (state 0%nat).

(** The fields of [visualization_msgs::msg::Marker] that
    [fake_sensor_callback] reads: [action], [pose.position.x],
    [pose.position.y], [id]. *)
Record Marker : Type := mkMarker {
  action : Z;
  position_x : R;
  position_y : R;
  id : Z
}.

(** Modelled from the spec: [visualization_msgs::msg::Marker::DELETE], the
    "deletion marker to be skipped rather than processed"; the message
    definition is not among the sources, where the constant is 2. *)
Definition DELETE : Z := 2.

(** The loop of [fake_sensor_callback] over [msg->markers]: a marker whose
    action is [DELETE] is skipped ([continue]); every other marker is passed
    to [EKF_Slam_update], in order, on the same (state, covar). *)
Fixpoint update_markers (markers : list Marker) (st : vec * mat)
  : option (vec * mat) :=
  match markers with
  | nil => Some st
  | (m :: ms)%list =>
      if Z.eqb (action m) DELETE then update_markers ms st
      else
        match
          EKF_Slam_update (fst st) (snd st) (position_x m) (position_y m)
            (id m)
        with
        | None => None
        | Some st' => update_markers ms st'
        end
  end.

(** [fake_sensor_callback], its work on (state, covar): one predict with the
    twist [robot_twist], then the loop over the markers.  [robot_twist] is
    what [nuturtle_.wheel_twist(wheel_config, prev_wheel_config)] returned
    ([DiffDrive] is not among the sources). *)
Definition fake_sensor_callback (epsilon : R) (robot_twist : Twist2D)
  (markers : list Marker) (st : vec * mat) : option (vec * mat) :=
  update_markers markers
    (EKF_Slam_predict epsilon (fst st) (snd st) robot_twist).

End Slam.

(** ** The NuSim node *)

Module NuSim.

(** [size_t timer_count_] and [std_msgs::msg::UInt64::data] are 64-bit
    unsigned integers. *)
Definition wrap64 (n : N) : N := (n mod 2 ^ 64)%N.

(** The node as far as [timer_callback] goes: the counter, and the messages
    published on [~/timestep] so far, oldest first. *)
Record node : Type := mkNode { timer_count_ : N; timestep_published : list N }.

(** The constructor: [timer_count_(0)], nothing published yet. *)
Definition node_init : node := mkNode 0 nil.

(** [void timer_callback()]: publish the counter, then increment it. *)
Definition timer_callback (nd : node) : node :=
  let message_data := wrap64 (timer_count_ nd) in
  mkNode (wrap64 (timer_count_ nd + 1))
         (timestep_published nd ++ [message_data]).

End NuSim.

Import turtlelib Slam.

(** * Properties *)

(** ** Transform2D *)

Lemma Transform2D_eq (a b : Transform2D) :
  vec_x (trans2d a) = vec_x (trans2d b) ->
  vec_y (trans2d a) = vec_y (trans2d b) ->
  rot2d a = rot2d b ->
  a = b.
Proof.
  destruct a as [[ax ay] ar], b as [[bx by_] br]; simpl.
  intros -> -> ->; reflexivity.
Qed.

(** What [operator*] returns for [T * T.inv()]: the rotation cancels, and the
    translation is [T]'s translation plus the translation of the inverse
    taken unrotated (the rotation read is the overwritten one, zero). *)
Lemma mul_inv_value (T : Transform2D) :
  mul T (inv T) =
  mkTransform2D
    (mkVector2D
       (vec_x (trans2d T) - vec_x (trans2d T) * cos (rot2d T)
        - vec_y (trans2d T) * sin (rot2d T))
       (vec_y (trans2d T) - vec_y (trans2d T) * cos (rot2d T)
        + vec_x (trans2d T) * sin (rot2d T)))
    0.
Proof.
  apply Transform2D_eq; unfold mul, mul_assign, inv; simpl.
  - replace (rot2d T + - rot2d T) with 0 by ring.
    rewrite cos_0, sin_0. ring.
  - replace (rot2d T + - rot2d T) with 0 by ring.
    rewrite cos_0, sin_0. ring.
  - ring.
Qed.

(** C1 (the code misses it).  For the transform with translation (1, 0) and
    rotation pi, [T * T.inv()] is the transform with translation (2, 0) and
    rotation 0, which is not the identity transform. *)
Theorem mul_inv_not_identity :
  let T := Transform2D_of_both (mkVector2D 1 0) PI in
  mul T (inv T) = mkTransform2D (mkVector2D 2 0) 0 /\
  mul T (inv T) <> Transform2D_identity.
Proof.
  cbv zeta.
  assert (E : mul (Transform2D_of_both (mkVector2D 1 0) PI)
                  (inv (Transform2D_of_both (mkVector2D 1 0) PI))
              = mkTransform2D (mkVector2D 2 0) 0).
  { rewrite mul_inv_value. simpl. rewrite cos_PI, sin_PI.
    apply Transform2D_eq; simpl; ring. }
  split; [exact E|].
  rewrite E. unfold Transform2D_identity, Vector2D_zero.
  intro H. injection H as H. lra.
Qed.

(** [operator()(Point2D)] adds the translation and nothing else, whatever
    the rotation of the transform. *)
Lemma apply_point_translates_only (T : Transform2D) (p : Point2D) :
  apply_point T p =
  mkPoint2D (vec_x (trans2d T) + pt_x p) (vec_y (trans2d T) + pt_y p).
Proof. reflexivity. Qed.

(** C2 (the code misses it).  For the transform with rotation pi and no
    translation, [operator()(Point2D)] maps the point (1, 0) to (1, 0): the
    point is translated only.  Rotation followed by translation gives
    (-1, 0), which is what [operator()(Vector2D)] returns on the same
    coordinates. *)
Theorem apply_point_does_not_rotate :
  let T := Transform2D_of_rot PI in
  apply_point T (mkPoint2D 1 0) = mkPoint2D 1 0 /\
  se2_action T (mkPoint2D 1 0) = mkPoint2D (-1) 0 /\
  apply_vector T (mkVector2D 1 0) = mkVector2D (-1) 0 /\
  apply_point T (mkPoint2D 1 0) <> se2_action T (mkPoint2D 1 0).
Proof.
  cbv zeta.
  assert (A : se2_action (Transform2D_of_rot PI) (mkPoint2D 1 0)
              = mkPoint2D (-1) 0).
  { unfold se2_action; simpl. rewrite cos_PI, sin_PI. f_equal; ring. }
  assert (B : apply_point (Transform2D_of_rot PI) (mkPoint2D 1 0)
              = mkPoint2D 1 0).
  { rewrite apply_point_translates_only; simpl. f_equal; ring. }
  split; [exact B|]. split; [exact A|]. split.
  - unfold apply_vector; simpl. rewrite cos_PI, sin_PI. f_equal; ring.
  - rewrite A, B. intro H. injection H as H. lra.
Qed.

(** 3 < pi < 5, from the bounds of the library. *)
Lemma PI_gt_3 : 3 < PI.
Proof. pose proof PI2_3_2. lra. Qed.

Lemma PI_lt_5 : PI < 5.
Proof. pose proof PI_4. lra. Qed.

(** C7, as stated, fails: the constructor from an angle stores 5 as it is,
    and composing two transforms of rotation 3 (which is inside (-pi, pi])
    stores rotation 6. *)
Lemma rotation_not_normalized :
  rotation (Transform2D_of_rot 5) = 5 /\
  ~ in_mpi_pi (rotation (Transform2D_of_rot 5)) /\
  in_mpi_pi (rotation (Transform2D_of_rot 3)) /\
  ~ in_mpi_pi (rotation (mul (Transform2D_of_rot 3) (Transform2D_of_rot 3))).
Proof.
  pose proof PI_gt_3. pose proof PI_lt_5.
  unfold in_mpi_pi, rotation, mul, mul_assign; simpl.
  repeat split; lra.
Qed.

(** C7, amended.  The stored rotation is what was supplied, unwrapped: the
    constructors store their angle argument as it is (zero when there is
    none), [inv] stores the negated angle, [operator*=] and [operator*] store
    the sum of the two angles, and [rotation()] returns the stored value. *)
Theorem rotation_is_stored_angle :
  rotation Transform2D_identity = 0 /\
  (forall trans, rotation (Transform2D_of_trans trans) = 0) /\
  (forall radians, rotation (Transform2D_of_rot radians) = radians) /\
  (forall trans radians,
      rotation (Transform2D_of_both trans radians) = radians) /\
  (forall T, rotation (inv T) = - rotation T) /\
  (forall lhs rhs,
      rotation (mul_assign lhs rhs) = rotation lhs + rotation rhs) /\
  (forall lhs rhs, rotation (mul lhs rhs) = rotation lhs + rotation rhs).
Proof. repeat split. Qed.

(** ** normalize_angle *)

(** [wrap_angle] picks the one multiple of 2*pi that lands in (-pi, pi]. *)
Lemma wrap_angle_unique (rad : R) (k : Z) :
  in_mpi_pi (rad - 2 * PI * IZR k) -> wrap_angle rad = rad - 2 * PI * IZR k.
Proof.
  unfold in_mpi_pi, wrap_angle. intros [Hlo Hhi].
  pose proof PI_RGT_0 as Hpi.
  assert (E : (1 - k)%Z = up ((PI - rad) / (2 * PI))).
  { apply tech_up; rewrite minus_IZR; simpl.
    - apply Rmult_lt_reg_r with (2 * PI); [lra|].
      unfold Rdiv. rewrite Rmult_assoc, Rinv_l by lra. lra.
    - apply Rmult_le_reg_r with (2 * PI); [lra|].
      rewrite Rmult_plus_distr_r.
      unfold Rdiv. rewrite Rmult_assoc, Rinv_l by lra. lra. }
  rewrite <- E.
  replace (1 - (1 - k))%Z with k by lia. reflexivity.
Qed.

Lemma wrap_angle_range (rad : R) : in_mpi_pi (wrap_angle rad).
Proof.
  unfold in_mpi_pi, wrap_angle.
  pose proof PI_RGT_0 as Hpi.
  destruct (archimed ((PI - rad) / (2 * PI))) as [Hgt Hle].
  set (u := up ((PI - rad) / (2 * PI))) in *.
  rewrite minus_IZR; simpl.
  assert (Hx : (PI - rad) / (2 * PI) * (2 * PI) = PI - rad).
  { unfold Rdiv. rewrite Rmult_assoc, Rinv_l by lra. ring. }
  assert (H1 : (PI - rad) < IZR u * (2 * PI)).
  { rewrite <- Hx. apply Rmult_lt_compat_r; lra. }
  assert (H2 : (IZR u - 1) * (2 * PI) <= PI - rad).
  { rewrite <- Hx. apply Rmult_le_compat_r; lra. }
  split; lra.
Qed.

Lemma wrap_angle_fixed (rad : R) : in_mpi_pi rad -> wrap_angle rad = rad.
Proof.
  intro H. rewrite (wrap_angle_unique rad 0).
  - simpl. ring.
  - simpl. replace (rad - 2 * PI * 0) with rad by ring. exact H.
Qed.

Lemma normalize_angle_fixed (rad : R) :
  - PI <= rad <= PI -> normalize_angle rad = rad.
Proof.
  intros [Hlo Hhi]. unfold normalize_angle.
  destruct (Req_EM_T rad (- PI)) as [->|Hne]; [reflexivity|].
  apply wrap_angle_fixed. unfold in_mpi_pi. lra.
Qed.

Lemma normalize_angle_closed_range (rad : R) :
  - PI <= normalize_angle rad <= PI.
Proof.
  unfold normalize_angle. pose proof PI_RGT_0.
  destruct (Req_EM_T rad (- PI)); [lra|].
  pose proof (wrap_angle_range rad) as [? ?]. lra.
Qed.

(** The values asserted by tests/test_geometry2.cpp hold of the model. *)
Example normalize_angle_tests :
  normalize_angle PI = PI /\
  normalize_angle (- PI) = - PI /\
  normalize_angle 0 = 0 /\
  normalize_angle (- PI / 4) = - PI / 4 /\
  normalize_angle (3 * PI / 2) = - PI / 2 /\
  normalize_angle (- 5 * PI / 2) = - PI / 2.
Proof.
  pose proof PI_RGT_0 as Hpi.
  repeat split; try (apply normalize_angle_fixed; lra).
  - unfold normalize_angle.
    destruct (Req_EM_T (3 * PI / 2) (- PI)) as [E|_]; [lra|].
    rewrite (wrap_angle_unique _ 1); [simpl; lra|].
    unfold in_mpi_pi; simpl; lra.
  - unfold normalize_angle.
    destruct (Req_EM_T (- 5 * PI / 2) (- PI)) as [E|_]; [lra|].
    rewrite (wrap_angle_unique _ (-1)); [simpl; lra|].
    unfold in_mpi_pi; simpl; lra.
Qed.

(** C8, as stated, fails at -pi: the normalized value is -pi, which is not
    in the half-open interval (-pi, pi]. *)
Lemma normalize_angle_minus_PI_outside :
  normalize_angle (- PI) = - PI /\ ~ in_mpi_pi (normalize_angle (- PI)).
Proof.
  assert (E : normalize_angle (- PI) = - PI).
  { apply normalize_angle_fixed. pose proof PI_RGT_0. lra. }
  split; [exact E|]. rewrite E. unfold in_mpi_pi. lra.
Qed.

(** C8, amended.  [normalize_angle] is idempotent; its result lies in the
    closed interval [-pi, pi], and in (-pi, pi] for every angle except -pi
    itself, which is returned as it is; pi and -pi are both fixed. *)
Theorem normalize_angle_idempotent_range_endpoints :
  (forall a, normalize_angle (normalize_angle a) = normalize_angle a) /\
  (forall a, - PI <= normalize_angle a <= PI) /\
  (forall a, in_mpi_pi (normalize_angle a)
             \/ (a = - PI /\ normalize_angle a = - PI)) /\
  normalize_angle PI = PI /\
  normalize_angle (- PI) = - PI.
Proof.
  pose proof PI_RGT_0 as Hpi.
  split; [|split; [|split; [|split]]].
  - intro a. apply normalize_angle_fixed, normalize_angle_closed_range.
  - apply normalize_angle_closed_range.
  - intro a. unfold normalize_angle.
    destruct (Req_EM_T a (- PI)) as [E|_].
    + right. split; [exact E|reflexivity].
    + left. apply wrap_angle_range.
  - apply normalize_angle_fixed; lra.
  - apply normalize_angle_fixed; lra.
Qed.

(** ** Sums and matrix products *)

Lemma sum_n_ext (n : nat) (f g : nat -> R) :
  (forall k, (k < n)%nat -> f k = g k) -> sum_n n f = sum_n n g.
Proof.
  induction n as [|n IH]; intro H; simpl; [reflexivity|].
  rewrite IH by (intros k Hk; apply H; lia).
  rewrite (H n) by lia. reflexivity.
Qed.

Lemma sum_n_zero (n : nat) : sum_n n (fun _ => 0) = 0.
Proof. induction n as [|n IH]; simpl; [reflexivity|rewrite IH; ring]. Qed.

Lemma sum_n_plus (n : nat) (f g : nat -> R) :
  sum_n n (fun k => f k + g k) = sum_n n f + sum_n n g.
Proof. induction n as [|n IH]; simpl; [ring|rewrite IH; ring]. Qed.

Lemma sum_n_minus (n : nat) (f g : nat -> R) :
  sum_n n (fun k => f k - g k) = sum_n n f - sum_n n g.
Proof. induction n as [|n IH]; simpl; [ring|rewrite IH; ring]. Qed.

Lemma sum_n_scal_l (n : nat) (c : R) (f : nat -> R) :
  sum_n n (fun k => c * f k) = c * sum_n n f.
Proof. induction n as [|n IH]; simpl; [ring|rewrite IH; ring]. Qed.

Lemma sum_n_scal_r (n : nat) (c : R) (f : nat -> R) :
  sum_n n (fun k => f k * c) = sum_n n f * c.
Proof. induction n as [|n IH]; simpl; [ring|rewrite IH; ring]. Qed.

(** Exchange of two finite sums. *)
Lemma sum_n_swap (n m : nat) (f : nat -> nat -> R) :
  sum_n n (fun k => sum_n m (fun l => f k l)) =
  sum_n m (fun l => sum_n n (fun k => f k l)).
Proof.
  induction n as [|n IH]; simpl.
  - symmetry. apply sum_n_zero.
  - rewrite IH, <- sum_n_plus. reflexivity.
Qed.

(** A sum against a row of the identity matrix picks one term. *)
Lemma sum_n_eye_l (n i : nat) (f : nat -> R) :
  (i < n)%nat -> sum_n n (fun k => eye i k * f k) = f i.
Proof.
  unfold eye. induction n as [|n IH]; intro Hi; [lia|]. simpl.
  destruct (Nat.eq_dec i n) as [->|Hne].
  - rewrite Nat.eqb_refl.
    rewrite (sum_n_ext n _ (fun _ => 0)).
    + rewrite sum_n_zero. ring.
    + intros k Hk. replace (Nat.eqb n k) with false; [ring|].
      symmetry. apply Nat.eqb_neq. lia.
  - rewrite IH by lia.
    replace (Nat.eqb i n) with false; [ring|].
    symmetry. apply Nat.eqb_neq. exact Hne.
Qed.

(** A sum whose terms vanish from [m] on stops at [m]. *)
Lemma sum_n_trunc (m n : nat) (f : nat -> R) :
  (m <= n)%nat -> (forall k, (m <= k < n)%nat -> f k = 0) ->
  sum_n n f = sum_n m f.
Proof.
  intros Hmn Hz. induction n as [|n IH].
  - replace m with 0%nat by lia. reflexivity.
  - destruct (Nat.eq_dec m (S n)) as [->|Hne]; [reflexivity|].
    simpl. rewrite IH by (try lia; intros; apply Hz; lia).
    rewrite (Hz n) by lia. ring.
Qed.

Lemma mmul_ext (p : nat) (A A' B B' : mat) (i j : nat) :
  (forall k, (k < p)%nat -> A i k = A' i k) ->
  (forall k, (k < p)%nat -> B k j = B' k j) ->
  mmul p A B i j = mmul p A' B' i j.
Proof.
  intros HA HB. unfold mmul. apply sum_n_ext. intros k Hk.
  rewrite HA, HB by exact Hk. reflexivity.
Qed.

Lemma mmul_eye_l (n : nat) (B : mat) (i j : nat) :
  (i < n)%nat -> mmul n eye B i j = B i j.
Proof. intro Hi. unfold mmul. apply (sum_n_eye_l n i (fun k => B k j) Hi). Qed.

Lemma mmul_eye_tr_r (n : nat) (B : mat) (i j : nat) :
  (j < n)%nat -> mmul n B (mtrans eye) i j = B i j.
Proof.
  intro Hj. unfold mmul, mtrans.
  rewrite (sum_n_ext n _ (fun k => eye j k * B i k))
    by (intros; ring).
  apply (sum_n_eye_l n j (fun k => B i k) Hj).
Qed.

(** Associativity of the product, entry by entry. *)
Lemma mmul_assoc (p q : nat) (A B C : mat) (i j : nat) :
  mmul q (mmul p A B) C i j = mmul p A (mmul q B C) i j.
Proof.
  unfold mmul.
  rewrite (sum_n_ext q _ (fun k => sum_n p (fun l => A i l * B l k * C k j)))
    by (intros; rewrite sum_n_scal_r; reflexivity).
  rewrite sum_n_swap.
  apply sum_n_ext. intros l _.
  rewrite <- sum_n_scal_l. apply sum_n_ext. intros; ring.
Qed.

(** [A * P * A.t()] is symmetric when [P] is, whatever [A]. *)
Lemma congruence_symmetric (n : nat) (A P : mat) :
  symmetric n P ->
  forall i j,
    mmul n (mmul n A P) (mtrans A) i j = mmul n (mmul n A P) (mtrans A) j i.
Proof.
  intros HP i j. unfold mmul, mtrans.
  rewrite (sum_n_ext n _
             (fun k => sum_n n (fun l => A i l * P l k * A j k)))
    by (intros; rewrite sum_n_scal_r; reflexivity).
  rewrite (sum_n_ext n (fun k => sum_n n (fun k0 => A j k0 * P k0 k) * A i k)
             (fun k => sum_n n (fun l => A j l * P l k * A i k)))
    by (intros; rewrite sum_n_scal_r; reflexivity).
  rewrite sum_n_swap.
  apply sum_n_ext. intros l Hl. apply sum_n_ext. intros k Hk.
  rewrite (HP k l Hk Hl). ring.
Qed.

Lemma Q_bar_symmetric (n : nat) : symmetric n Q_bar.
Proof.
  intros i j _ _. unfold Q_bar, mset, mzeros.
  destruct i as [|[|[|i]]], j as [|[|[|j]]]; simpl; reflexivity.
Qed.

(** [Q_bar] is zero outside the diagonal of the 3x3 robot-pose block. *)
Lemma Q_bar_entries (i j : nat) :
  Q_bar i j = if Nat.eqb i j && Nat.ltb i 3 then 1 / 10 else 0.
Proof.
  unfold Q_bar, mset, mzeros.
  destruct i as [|[|[|i]]], j as [|[|[|j]]]; simpl; try reflexivity.
  destruct (Nat.eqb i j); reflexivity.
Qed.

(** ** EKF predict *)

Lemma almost_equal_refl (epsilon d : R) :
  0 < epsilon -> almost_equal epsilon d d = true.
Proof.
  intro He. unfold almost_equal.
  destruct (Rlt_dec (Rabs (d - d)) epsilon) as [_|Hn]; [reflexivity|].
  exfalso. apply Hn.
  replace (d - d) with 0 by ring. rewrite Rabs_R0. exact He.
Qed.

Lemma almost_equal_far (epsilon d : R) :
  epsilon <= Rabs d -> almost_equal epsilon d 0 = false.
Proof.
  intro He. unfold almost_equal.
  destruct (Rlt_dec (Rabs (d - 0)) epsilon) as [Hlt|_]; [|reflexivity].
  exfalso. replace (d - 0) with d in Hlt by ring. lra.
Qed.

(** With the zero twist the mean update writes back what it read. *)
Lemma predict_mean_zero_twist (epsilon : R) (state : vec) :
  0 < epsilon ->
  forall i, predict_mean epsilon state (mkTwist2D 0 0 0) i = state i.
Proof.
  intros He i. unfold predict_mean; simpl.
  rewrite (almost_equal_refl epsilon 0 He).
  unfold vset.
  destruct i as [|[|[|i]]]; simpl; try reflexivity; ring.
Qed.

(** With the zero twist [A_t] is the identity matrix. *)
Lemma predict_jacobian_zero_twist (epsilon : R) (state : vec) :
  0 < epsilon ->
  forall i j, predict_jacobian epsilon state (mkTwist2D 0 0 0) i j = eye i j.
Proof.
  intros He i j. unfold predict_jacobian; simpl.
  rewrite (almost_equal_refl epsilon 0 He).
  unfold madd, mset, mzeros.
  destruct (Nat.eqb i 2 && Nat.eqb j 0); [ring|].
  destruct (Nat.eqb i 1 && Nat.eqb j 0); ring.
Qed.

(** C6.  With the zero twist, [EKF_Slam_predict] leaves every component of
    the state unchanged and adds [Q_bar] to the covariance; [Q_bar] is zero
    outside the 3x3 robot-pose block, so every covariance entry with a
    landmark row or column is unchanged. *)
Theorem predict_zero_twist (epsilon : R) (state : vec) (covar : mat) :
  0 < epsilon ->
  let state' := fst (EKF_Slam_predict epsilon state covar (mkTwist2D 0 0 0)) in
  let covar' := snd (EKF_Slam_predict epsilon state covar (mkTwist2D 0 0 0)) in
  (forall i, state' i = state i) /\
  (forall i j, (i < STATE_SIZE)%nat -> (j < STATE_SIZE)%nat ->
     covar' i j = covar i j + Q_bar i j) /\
  (forall i j, (3 <= i)%nat \/ (3 <= j)%nat -> Q_bar i j = 0) /\
  (forall i j, (i < STATE_SIZE)%nat -> (j < STATE_SIZE)%nat ->
     (3 <= i)%nat \/ (3 <= j)%nat -> covar' i j = covar i j).
Proof.
  intros He state' covar'.
  assert (HQ : forall i j, (3 <= i)%nat \/ (3 <= j)%nat -> Q_bar i j = 0).
  { intros i j Hij. rewrite Q_bar_entries.
    destruct (Nat.eqb_spec i j) as [->|_]; simpl; [|reflexivity].
    replace (Nat.ltb j 3) with false; [reflexivity|].
    symmetry. apply Nat.ltb_ge. lia. }
  assert (HC : forall i j, (i < STATE_SIZE)%nat -> (j < STATE_SIZE)%nat ->
                covar' i j = covar i j + Q_bar i j).
  { intros i j Hi Hj. subst covar'. unfold EKF_Slam_predict; simpl.
    unfold madd. f_equal.
    rewrite (mmul_ext STATE_SIZE _ (mmul STATE_SIZE eye covar) _ (mtrans eye)).
    - rewrite mmul_eye_tr_r by exact Hj. apply mmul_eye_l. exact Hi.
    - intros k _. apply mmul_ext; [|reflexivity].
      intros l _. apply predict_jacobian_zero_twist. exact He.
    - intros k _. unfold mtrans.
      apply predict_jacobian_zero_twist. exact He. }
  split; [|split; [|split]].
  - intro i. apply predict_mean_zero_twist. exact He.
  - exact HC.
  - exact HQ.
  - intros i j Hi Hj Hij. rewrite HC, HQ by assumption. ring.
Qed.

(** The zero twist on the state the constructor leaves behind, with the
    tolerance 1e-12. *)
Lemma predict_zero_twist_witness :
  0 < 1 / 1000000000000 /\
  (forall i,
     fst (EKF_Slam_predict (1 / 1000000000000) vzeros covar_init
            (mkTwist2D 0 0 0)) i = vzeros i) /\
  (forall i j, (i < STATE_SIZE)%nat -> (j < STATE_SIZE)%nat ->
     (3 <= i)%nat \/ (3 <= j)%nat ->
     snd (EKF_Slam_predict (1 / 1000000000000) vzeros covar_init
            (mkTwist2D 0 0 0)) i j = covar_init i j).
Proof.
  assert (He : 0 < 1 / 1000000000000) by lra.
  split; [exact He|].
  split.
  - exact (proj1 (predict_zero_twist _ vzeros covar_init He)).
  - exact (proj2 (proj2 (proj2 (predict_zero_twist _ vzeros covar_init He)))).
Defined.

(** C10.  In the branch for a non-zero angular rate the mean update has
    already added [twist.omega] to [state(0)] when [A_t(1,0)] and [A_t(2,0)]
    are computed, so both are evaluated at the heading [theta + omega]; in
    the zero-rate branch the heading is not written and both are evaluated at
    [theta].  [theta] is [state(0)] on entry. *)
Theorem predict_jacobian_heading (epsilon : R) (state : vec) (covar : mat)
  (twist : Twist2D) :
  let theta := state 0%nat in
  let w := omega twist in
  let state' := predict_mean epsilon state twist in
  let A_t := predict_jacobian epsilon state' twist in
  EKF_Slam_predict epsilon state covar twist =
    (state',
     madd (mmul STATE_SIZE (mmul STATE_SIZE A_t covar) (mtrans A_t)) Q_bar) /\
  if almost_equal epsilon w 0 then
    state' 0%nat = theta /\
    A_t 1%nat 0%nat = - tw_x twist * sin theta /\
    A_t 2%nat 0%nat = tw_x twist * cos theta
  else
    state' 0%nat = theta + w /\
    A_t 1%nat 0%nat =
      (tw_x twist / w) * (cos ((theta + w) + w) - cos (theta + w)) /\
    A_t 2%nat 0%nat =
      (tw_x twist / w) * (sin ((theta + w) + w) - sin (theta + w)).
Proof.
  cbv zeta. split; [reflexivity|].
  unfold predict_jacobian, predict_mean.
  destruct (almost_equal epsilon (omega twist) 0);
    unfold madd, mset, mzeros, eye, vset; simpl;
    repeat split; ring.
Qed.

(** Both branches of the predict step occur.  With the tolerance
    1e-12, the twist (omega, x, y) = (1, 1, 0) on the zero state takes the
    non-zero branch: the heading becomes 1 and [A_t(1,0)] is
    [cos 2 - cos 1], not the [cos 1 - cos 0] of the heading on entry. *)
Example predict_jacobian_arc_step :
  almost_equal (1 / 1000000000000) 1 0 = false /\
  predict_mean (1 / 1000000000000) vzeros (mkTwist2D 1 1 0) 0%nat = 1 /\
  predict_jacobian (1 / 1000000000000)
    (predict_mean (1 / 1000000000000) vzeros (mkTwist2D 1 1 0))
    (mkTwist2D 1 1 0) 1%nat 0%nat = cos 2 - cos 1.
Proof.
  assert (Hfar : almost_equal (1 / 1000000000000) 1 0 = false).
  { apply almost_equal_far. rewrite Rabs_R1. lra. }
  split; [exact Hfar|].
  unfold predict_jacobian, predict_mean; simpl. rewrite Hfar.
  unfold madd, mset, mzeros, eye, vset, vzeros; simpl.
  split; [ring|].
  replace (0 + 1 + 1) with 2 by ring. replace (0 + 1) with 1 by ring.
  field.
Qed.

(** ** EKF update: landmark slot and initialisation *)

Lemma marker_index_nat (k : Z) :
  (0 <= k)%Z -> Z.to_nat (marker_index k) = (3 + 2 * Z.to_nat k)%nat.
Proof. intro Hk. unfold marker_index. lia. Qed.

Lemma index_ok_iff (idx : Z) :
  index_ok idx = true <-> (0 <= idx /\ idx + 1 < Z.of_nat STATE_SIZE)%Z.
Proof.
  unfold index_ok. rewrite andb_true_iff, Z.leb_le, Z.ltb_lt. tauto.
Qed.

(** What [init_landmark] leaves in the vector when the slot [i], [i + 1] is
    not one of the robot-pose entries. *)
Lemma init_landmark_unseen (state : vec) (i : nat) (r phi : R) :
  (3 <= i)%nat ->
  state i = 0 -> state (i + 1)%nat = 0 ->
  init_landmark state i r phi i
    = state 1%nat + r * cos (phi + state 0%nat) /\
  init_landmark state i r phi (i + 1)%nat
    = state 2%nat + r * sin (phi + state 0%nat) /\
  (forall j, j <> i -> j <> (i + 1)%nat ->
     init_landmark state i r phi j = state j).
Proof.
  intros Hi Hx Hy. unfold init_landmark.
  destruct (Req_EM_T (state i) 0) as [_|Hn]; [|contradiction].
  destruct (Req_EM_T (state (i + 1)%nat) 0) as [_|Hn]; [|contradiction].
  unfold vset.
  assert (E1 : Nat.eqb i (i + 1) = false) by (apply Nat.eqb_neq; lia).
  assert (E2 : Nat.eqb 1 i = false) by (apply Nat.eqb_neq; lia).
  assert (E3 : Nat.eqb 2 i = false) by (apply Nat.eqb_neq; lia).
  assert (E4 : Nat.eqb 0 i = false) by (apply Nat.eqb_neq; lia).
  split; [|split].
  - rewrite E1, Nat.eqb_refl. reflexivity.
  - rewrite Nat.eqb_refl, E3, E4. reflexivity.
  - intros j Hj1 Hj2.
    apply Nat.eqb_neq in Hj1, Hj2. rewrite Hj1, Hj2. reflexivity.
Qed.

Lemma init_landmark_seen (state : vec) (i : nat) (r phi : R) :
  state i <> 0 \/ state (i + 1)%nat <> 0 ->
  init_landmark state i r phi = state.
Proof.
  intro H. unfold init_landmark.
  destruct (Req_EM_T (state i) 0) as [Ex|_]; [|reflexivity].
  destruct (Req_EM_T (state (i + 1)%nat) 0) as [Ey|_]; [|reflexivity].
  tauto.
Qed.

(** C3.  For a landmark id [k] with [0 <= k < MAX_OBSTACLES], the slot is
    at indices [3 + 2k] and [3 + 2k + 1].  When both entries are exactly
    zero, the update runs its Kalman step on a state vector whose slot holds
    [(state(1) + r cos(phi + state(0)), state(2) + r sin(phi + state(0)))],
    [r] and [phi] being the range and bearing of the marker and [state] the
    vector on entry, every other entry being as on entry.  When one of the
    two entries is not zero the Kalman step runs on the state vector as it
    is. *)
Theorem update_initializes_unseen_landmark
  (state : vec) (covar : mat) (marker_x marker_y : R) (k : Z) :
  (0 <= k < Z.of_nat MAX_OBSTACLES)%Z ->
  let i := (3 + 2 * Z.to_nat k)%nat in
  let r := range_of marker_x marker_y in
  let phi := bearing_of marker_x marker_y in
  let z := measurement marker_x marker_y in
  (state i = 0 /\ state (i + 1)%nat = 0 ->
     exists state1 : vec,
       state1 i = state 1%nat + r * cos (phi + state 0%nat) /\
       state1 (i + 1)%nat = state 2%nat + r * sin (phi + state 0%nat) /\
       (forall j, j <> i -> j <> (i + 1)%nat -> state1 j = state j) /\
       EKF_Slam_update state covar marker_x marker_y k
         = kalman_step state1 covar z i) /\
  (state i <> 0 \/ state (i + 1)%nat <> 0 ->
     EKF_Slam_update state covar marker_x marker_y k
       = kalman_step state covar z i).
Proof.
  intros Hk i r phi z.
  assert (Hok : index_ok (marker_index k) = true).
  { apply index_ok_iff. unfold marker_index, STATE_SIZE.
    unfold MAX_OBSTACLES in *. lia. }
  assert (Hi : Z.to_nat (marker_index k) = i)
    by (apply marker_index_nat; lia).
  assert (Hupd : EKF_Slam_update state covar marker_x marker_y k
                 = kalman_step (init_landmark state i r phi) covar z i).
  { unfold EKF_Slam_update. rewrite Hok, Hi. reflexivity. }
  split.
  - intros [Hx Hy].
    exists (init_landmark state i r phi).
    destruct (init_landmark_unseen state i r phi) as (E1 & E2 & E3);
      [subst i; lia|exact Hx|exact Hy|].
    repeat split; assumption.
  - intro Hseen. rewrite Hupd.
    rewrite (init_landmark_seen state i r phi Hseen). reflexivity.
Qed.

(** Landmark 0 on the state vector that the constructor leaves behind. *)
Lemma update_initializes_unseen_landmark_witness :
  (0 <= 0 < Z.of_nat MAX_OBSTACLES)%Z /\
  exists state1 : vec,
    state1 3%nat = 0 + range_of 1 0 * cos (bearing_of 1 0 + 0) /\
    state1 4%nat = 0 + range_of 1 0 * sin (bearing_of 1 0 + 0) /\
    EKF_Slam_update vzeros covar_init 1 0 0
      = kalman_step state1 covar_init (measurement 1 0) 3.
Proof.
  assert (Hk : (0 <= 0 < Z.of_nat MAX_OBSTACLES)%Z)
    by (unfold MAX_OBSTACLES; lia).
  split; [exact Hk|].
  destruct (proj1 (update_initializes_unseen_landmark
                     vzeros covar_init 1 0 0 Hk) (conj eq_refl eq_refl))
    as (state1 & E1 & E2 & _ & E4).
  exists state1. repeat split; assumption.
Defined.

(** C9, as stated, fails at id -1: [marker_index] is 1, and both accesses,
    [state(1)] and [state(2)], are inside the vector, although the id is
    negative. *)
Lemma marker_index_minus_one_in_bounds :
  marker_index (-1) = 1%Z /\
  index_ok (marker_index (-1)) = true /\
  ~ (0 <= -1 < Z.of_nat MAX_OBSTACLES)%Z.
Proof.
  split; [reflexivity|]. split; [reflexivity|]. lia.
Qed.

(** C9, amended.  [EKF_Slam_update] reads and writes the state vector at
    [2*id + 3] and [2*id + 4]; with [STATE_SIZE = 63] both are inside the
    vector exactly when [-1 <= id < 30], and the update has no result when
    they are not.  For [0 <= id < 30] the two indices are those of a landmark
    slot: at least 3, so distinct from the robot-pose entries. *)
Theorem update_index_in_bounds_iff (marker_id : Z) :
  Z.of_nat STATE_SIZE = 63%Z /\
  (index_ok (marker_index marker_id) = true
   <-> (-1 <= marker_id < Z.of_nat MAX_OBSTACLES)%Z) /\
  (index_ok (marker_index marker_id) = false ->
   forall state covar marker_x marker_y,
     EKF_Slam_update state covar marker_x marker_y marker_id = None) /\
  ((0 <= marker_id < Z.of_nat MAX_OBSTACLES)%Z ->
   index_ok (marker_index marker_id) = true /\
   (3 <= marker_index marker_id)%Z).
Proof.
  split; [reflexivity|].
  assert (Hiff : index_ok (marker_index marker_id) = true
                 <-> (-1 <= marker_id < Z.of_nat MAX_OBSTACLES)%Z).
  { rewrite index_ok_iff. unfold marker_index, STATE_SIZE, MAX_OBSTACLES.
    lia. }
  split; [exact Hiff|]. split.
  - intros Hbad state covar marker_x marker_y.
    unfold EKF_Slam_update. rewrite Hbad. reflexivity.
  - intro Hk. split.
    + apply Hiff. lia.
    + unfold marker_index. lia.
Qed.

(** The largest landmark id. *)
Lemma update_index_in_bounds_iff_witness :
  (0 <= 29 < Z.of_nat MAX_OBSTACLES)%Z /\
  index_ok (marker_index 29) = true /\
  (3 <= marker_index 29)%Z.
Proof.
  assert (Hk : (0 <= 29 < Z.of_nat MAX_OBSTACLES)%Z)
    by (unfold MAX_OBSTACLES; lia).
  split; [exact Hk|].
  exact (proj2 (proj2 (proj2 (update_index_in_bounds_iff 29))) Hk).
Defined.

(** ** EKF update: what a successful call returns *)

Lemma kalman_step_inversion (state : vec) (covar : mat) (z : vec) (i : nat)
  (state' : vec) (covar' : mat) :
  kalman_step state covar z i = Some (state', covar') ->
  sq_dist state i <> 0 /\
  exists Si,
    inv2 (innovation_cov (jacobian_H state i) covar) = Some Si /\
    state' = vadd state
               (mvmul 2 (kalman_gain (jacobian_H state i) covar Si)
                  (residual state z i)) /\
    covar' = mmul STATE_SIZE
               (msub eye
                  (mmul 2 (kalman_gain (jacobian_H state i) covar Si)
                     (jacobian_H state i)))
               covar.
Proof.
  unfold kalman_step, kalman_gain.
  destruct (Req_EM_T (sq_dist state i) 0) as [|Hd]; [discriminate|].
  destruct (inv2 (innovation_cov (jacobian_H state i) covar)) as [Si|];
    [|discriminate].
  intro H. injection H as <- <-.
  split; [exact Hd|]. exists Si. repeat split.
Qed.

Lemma EKF_Slam_update_inversion (state : vec) (covar : mat)
  (marker_x marker_y : R) (marker_id : Z) (state' : vec) (covar' : mat) :
  EKF_Slam_update state covar marker_x marker_y marker_id
    = Some (state', covar') ->
  index_ok (marker_index marker_id) = true /\
  kalman_step
    (init_landmark state (Z.to_nat (marker_index marker_id))
       (range_of marker_x marker_y) (bearing_of marker_x marker_y))
    covar (measurement marker_x marker_y)
    (Z.to_nat (marker_index marker_id))
  = Some (state', covar').
Proof.
  unfold EKF_Slam_update.
  destruct (index_ok (marker_index marker_id)); [|discriminate].
  intro H. split; [reflexivity|exact H].
Qed.

(** [inv2] returns the inverse: the product with the argument is the 2x2
    identity. *)
Lemma inv2_is_inverse (S Si : mat) (i j : nat) :
  inv2 S = Some Si -> (i < 2)%nat -> (j < 2)%nat ->
  mmul 2 S Si i j = eye i j /\ mmul 2 Si S i j = eye i j.
Proof.
  unfold inv2.
  destruct (Req_EM_T _ 0) as [|Hdet]; [discriminate|].
  intros H Hi Hj. injection H as <-.
  unfold mmul, eye.
  destruct i as [|[|i]]; [| |lia]; (destruct j as [|[|j]]; [| |lia]);
    simpl; split; field; exact Hdet.
Qed.

Lemma inv2_symmetric (S Si : mat) :
  inv2 S = Some Si -> S 0%nat 1%nat = S 1%nat 0%nat ->
  Si 0%nat 1%nat = Si 1%nat 0%nat.
Proof.
  unfold inv2.
  destruct (Req_EM_T _ 0); [discriminate|].
  intros H E. injection H as <-. rewrite E. reflexivity.
Qed.

Lemma innovation_cov_symmetric (H covar : mat) :
  symmetric STATE_SIZE covar ->
  innovation_cov H covar 0%nat 1%nat = innovation_cov H covar 1%nat 0%nat.
Proof.
  intro HP. unfold innovation_cov, madd.
  rewrite (congruence_symmetric STATE_SIZE H covar HP 0%nat 1%nat).
  reflexivity.
Qed.

(** The covariance update entry by entry, for a symmetric [covar]: with
    [G = H * covar], entry (i, j) of [(I - K * H) * covar] is
    [covar(i,j) - sum_a sum_b G(b,i) * Si(b,a) * G(a,j)]. *)
Lemma covar_update_entry (H covar Si : mat) (i j : nat) :
  symmetric STATE_SIZE covar ->
  (i < STATE_SIZE)%nat -> (j < STATE_SIZE)%nat ->
  mmul STATE_SIZE (msub eye (mmul 2 (kalman_gain H covar Si) H)) covar i j =
  covar i j
  - sum_n 2 (fun a =>
      sum_n 2 (fun b => mmul STATE_SIZE H covar b i * Si b a)
      * mmul STATE_SIZE H covar a j).
Proof.
  intros HP Hi Hj.
  transitivity
    (mmul STATE_SIZE eye covar i j
     - mmul STATE_SIZE (mmul 2 (kalman_gain H covar Si) H) covar i j).
  { unfold mmul at 1. unfold msub.
    rewrite (sum_n_ext STATE_SIZE _
               (fun k => eye i k * covar k j
                         - mmul 2 (kalman_gain H covar Si) H i k * covar k j))
      by (intros; ring).
    rewrite sum_n_minus. reflexivity. }
  rewrite mmul_eye_l by exact Hi.
  rewrite mmul_assoc.
  f_equal. unfold mmul at 1. apply sum_n_ext. intros a _.
  f_equal. unfold kalman_gain, mmul at 1. apply sum_n_ext. intros b _.
  f_equal. unfold mmul, mtrans. apply sum_n_ext. intros l Hl.
  rewrite (HP i l Hi Hl). ring.
Qed.

Lemma covar_update_symmetric (H covar Si : mat) :
  symmetric STATE_SIZE covar ->
  Si 0%nat 1%nat = Si 1%nat 0%nat ->
  symmetric STATE_SIZE
    (mmul STATE_SIZE (msub eye (mmul 2 (kalman_gain H covar Si) H)) covar).
Proof.
  intros HP HS i j Hi Hj.
  rewrite !covar_update_entry by assumption.
  rewrite (HP i j Hi Hj). simpl. rewrite HS. ring.
Qed.

Lemma predict_symmetric (epsilon : R) (state : vec) (covar : mat)
  (twist : Twist2D) :
  symmetric STATE_SIZE covar ->
  symmetric STATE_SIZE (snd (EKF_Slam_predict epsilon state covar twist)).
Proof.
  intros HP i j Hi Hj. unfold EKF_Slam_predict; simpl. unfold madd.
  rewrite (congruence_symmetric STATE_SIZE _ covar HP i j).
  rewrite (Q_bar_symmetric STATE_SIZE i j Hi Hj). reflexivity.
Qed.

Lemma update_symmetric (state : vec) (covar : mat) (marker_x marker_y : R)
  (marker_id : Z) (state' : vec) (covar' : mat) :
  symmetric STATE_SIZE covar ->
  EKF_Slam_update state covar marker_x marker_y marker_id
    = Some (state', covar') ->
  symmetric STATE_SIZE covar'.
Proof.
  intros HP Hupd.
  apply EKF_Slam_update_inversion in Hupd as [_ Hk].
  apply kalman_step_inversion in Hk as (_ & Si & Hinv & _ & ->).
  apply covar_update_symmetric; [exact HP|].
  apply (inv2_symmetric _ _ Hinv).
  apply innovation_cov_symmetric. exact HP.
Qed.

Lemma run_calls_symmetric (epsilon : R) (cs : list ekf_call) :
  forall st st',
    symmetric STATE_SIZE (snd st) ->
    run_calls epsilon cs st = Some st' ->
    symmetric STATE_SIZE (snd st').
Proof.
  induction cs as [|c cs IH]; intros st st' HP Hrun; simpl in Hrun.
  - injection Hrun as <-. exact HP.
  - destruct (run_call epsilon c st) as [st1|] eqn:Hc; [|discriminate].
    apply (IH st1 st'); [|exact Hrun].
    destruct c as [twist|mx my id]; simpl in Hc.
    + injection Hc as <-. apply predict_symmetric. exact HP.
    + destruct st1 as [s1 P1].
      apply (update_symmetric (fst st) (snd st) mx my id s1 P1 HP Hc).
Qed.

(** ** EKF update of landmark 0 on the initial covariance *)

Lemma range_of_1_0 : range_of 1 0 = 1.
Proof.
  unfold range_of. replace (1 ^ 2 + 0 ^ 2) with 1 by ring. apply sqrt_1.
Qed.

Lemma bearing_of_1_0 : bearing_of 1 0 = 0.
Proof.
  unfold bearing_of, atan2.
  destruct (Rlt_dec 0 1) as [_|Hn]; [|lra].
  replace (0 / 1) with 0 by field. apply atan_0.
Qed.

Lemma jacobian_H_support (state : vec) (a l : nat) :
  (5 <= l)%nat -> jacobian_H state 3 a l = 0.
Proof.
  intro Hl. unfold jacobian_H, mset, mzeros.
  do 5 (destruct l as [|l]; [lia|]).
  simpl. rewrite !andb_false_r. reflexivity.
Qed.

Lemma innovation_cov_init_landmark0 (state : vec) (a b : nat) :
  innovation_cov (jacobian_H state 3) covar_init a b =
  1000000000
  * (jacobian_H state 3 a 3%nat * jacobian_H state 3 b 3%nat
     + jacobian_H state 3 a 4%nat * jacobian_H state 3 b 4%nat)
  + R_noise a b.
Proof.
  unfold innovation_cov, madd. f_equal.
  unfold mmul, mtrans.
  rewrite (sum_n_trunc 5 STATE_SIZE);
    [|unfold STATE_SIZE, MAX_OBSTACLES; lia
     |intros k Hk; rewrite (jacobian_H_support state b k) by lia; ring].
  rewrite (sum_n_ext 5 _
    (fun k => sum_n 5 (fun l => jacobian_H state 3 a l * covar_init l k)
              * jacobian_H state 3 b k)).
  2:{ intros k Hk. f_equal.
      apply (sum_n_trunc 5 STATE_SIZE);
        [unfold STATE_SIZE, MAX_OBSTACLES; lia|].
      intros l Hl. rewrite (jacobian_H_support state a l) by lia. ring. }
  set (H := jacobian_H state 3).
  unfold covar_init. simpl. ring.
Qed.

Lemma jacobian_H_landmark0 (state : vec) :
  jacobian_H state 3 0%nat 3%nat
    = delta_x state 3 / sqrt (sq_dist state 3) /\
  jacobian_H state 3 0%nat 4%nat
    = delta_y state 3 / sqrt (sq_dist state 3) /\
  jacobian_H state 3 1%nat 3%nat = - delta_y state 3 / sq_dist state 3 /\
  jacobian_H state 3 1%nat 4%nat = delta_x state 3 / sq_dist state 3.
Proof. repeat split. Qed.

Lemma sq_dist_nonneg (state : vec) (i : nat) : 0 <= sq_dist state i.
Proof.
  unfold sq_dist.
  pose proof (pow2_ge_0 (delta_x state i)).
  pose proof (pow2_ge_0 (delta_y state i)). lra.
Qed.

(** On the covariance the constructor leaves behind, the innovation
    covariance of landmark 0 is diagonal with positive entries. *)
Lemma innovation_cov_init_values (state : vec) :
  sq_dist state 3 <> 0 ->
  let S := innovation_cov (jacobian_H state 3) covar_init in
  S 0%nat 0%nat = 1000000000 + 1 / 10 /\
  S 0%nat 1%nat = 0 /\
  S 1%nat 0%nat = 0 /\
  S 1%nat 1%nat = 1000000000 / sq_dist state 3 + 1 / 10.
Proof.
  intros Hd S. subst S.
  pose proof (sq_dist_nonneg state 3) as Hge.
  assert (Hpos : 0 < sq_dist state 3) by lra.
  assert (Hs : sqrt (sq_dist state 3) <> 0).
  { pose proof (sqrt_lt_R0 _ Hpos). lra. }
  assert (Hss : sqrt (sq_dist state 3) * sqrt (sq_dist state 3)
                = sq_dist state 3) by (apply sqrt_sqrt; lra).
  assert (Hdd : delta_x state 3 * delta_x state 3
                + delta_y state 3 * delta_y state 3 = sq_dist state 3)
    by (unfold sq_dist; ring).
  rewrite !innovation_cov_init_landmark0.
  destruct (jacobian_H_landmark0 state) as (-> & -> & -> & ->).
  set (dx := delta_x state 3) in *. set (dy := delta_y state 3) in *.
  set (d := sq_dist state 3) in *. set (s := sqrt d) in *.
  unfold R_noise, mset, mzeros; simpl.
  repeat split.
  - replace (dx / s * (dx / s) + dy / s * (dy / s))
      with ((dx * dx + dy * dy) / (s * s)) by (field; exact Hs).
    rewrite Hdd, Hss. field. exact Hd.
  - field. split; assumption.
  - field. split; assumption.
  - replace (- dy / d * (- dy / d) + dx / d * (dx / d))
      with ((dx * dx + dy * dy) / (d * d)) by (field; exact Hd).
    rewrite Hdd. field. exact Hd.
Qed.

Lemma inv2_innovation_cov_init (state : vec) :
  sq_dist state 3 <> 0 ->
  exists Si, inv2 (innovation_cov (jacobian_H state 3) covar_init) = Some Si.
Proof.
  intro Hd.
  destruct (innovation_cov_init_values state Hd) as (E00 & E01 & E10 & E11).
  unfold inv2. rewrite E00, E01, E10, E11.
  pose proof (sq_dist_nonneg state 3) as Hge.
  assert (Hq : 0 < 1000000000 / sq_dist state 3).
  { apply Rdiv_lt_0_compat; lra. }
  destruct (Req_EM_T _ 0) as [E|_]; [|eexists; reflexivity].
  exfalso. nra.
Qed.

(** The first update of landmark 0 on the covariance the constructor leaves
    behind returns a result whenever the landmark is not at the robot's
    position after initialisation. *)
Lemma update_landmark0_defined (state : vec) (marker_x marker_y : R) :
  sq_dist
    (init_landmark state 3 (range_of marker_x marker_y)
       (bearing_of marker_x marker_y)) 3 <> 0 ->
  exists state' covar',
    EKF_Slam_update state covar_init marker_x marker_y 0
      = Some (state', covar').
Proof.
  intro Hd. unfold EKF_Slam_update.
  change (index_ok (marker_index 0)) with true.
  change (Z.to_nat (marker_index 0)) with 3%nat.
  cbv iota zeta. unfold kalman_step.
  destruct (Req_EM_T _ 0) as [E|_]; [contradiction|].
  destruct (inv2_innovation_cov_init _ Hd) as [Si ->].
  eexists; eexists; reflexivity.
Qed.

Lemma covar_init_symmetric (n : nat) : symmetric n covar_init.
Proof.
  intros i j _ _. unfold covar_init.
  destruct (Nat.eqb_spec i j) as [->|Hne].
  - rewrite Nat.eqb_refl. reflexivity.
  - replace (Nat.eqb j i) with false; [reflexivity|].
    symmetry. apply Nat.eqb_neq. auto.
Qed.

(** The robot at the origin with heading 0 sees landmark 0 at (1, 0) for the
    first time: after initialisation the squared distance is 1. *)
Lemma sq_dist_first_sighting :
  sq_dist (init_landmark vzeros 3 (range_of 1 0) (bearing_of 1 0)) 3 = 1.
Proof.
  destruct (init_landmark_unseen vzeros 3 (range_of 1 0) (bearing_of 1 0))
    as (E1 & E2 & E3); [lia|reflexivity|reflexivity|].
  unfold sq_dist, delta_x, delta_y.
  rewrite E1, E2, (E3 1%nat), (E3 2%nat) by lia.
  rewrite range_of_1_0, bearing_of_1_0. unfold vzeros.
  replace (0 + 0) with 0 by ring. rewrite cos_0, sin_0. ring.
Qed.

Lemma update_first_sighting_defined :
  exists state' covar',
    EKF_Slam_update vzeros covar_init 1 0 0 = Some (state', covar').
Proof.
  apply update_landmark0_defined. rewrite sq_dist_first_sighting. lra.
Qed.

(** ** Symmetry of the covariance *)

(** C4.  From a symmetric covariance matrix, [EKF_Slam_predict] returns a
    symmetric covariance matrix, every [EKF_Slam_update] that returns does
    so with a symmetric covariance matrix, and so does every sequence of
    predict and update calls. *)
Theorem covariance_symmetry_invariant (epsilon : R) (covar : mat) :
  symmetric STATE_SIZE covar ->
  (forall state twist,
     symmetric STATE_SIZE
       (snd (EKF_Slam_predict epsilon state covar twist))) /\
  (forall state marker_x marker_y marker_id state' covar',
     EKF_Slam_update state covar marker_x marker_y marker_id
       = Some (state', covar') ->
     symmetric STATE_SIZE covar') /\
  (forall calls state state' covar',
     run_calls epsilon calls (state, covar) = Some (state', covar') ->
     symmetric STATE_SIZE covar').
Proof.
  intro HP. split; [|split].
  - intros state twist. apply predict_symmetric. exact HP.
  - intros state mx my id state' covar' Hupd.
    exact (update_symmetric state covar mx my id state' covar' HP Hupd).
  - intros calls state state' covar' Hrun.
    exact (run_calls_symmetric epsilon calls (state, covar) (state', covar')
             HP Hrun).
Qed.

(** From the state the constructor leaves behind: the first sighting of
    landmark 0 at (1, 0), then a predict with an arc twist. *)
Lemma covariance_symmetry_invariant_witness :
  symmetric STATE_SIZE covar_init /\
  exists state' covar',
    run_calls (1 / 1000000000000)
      [Update 1 0 0; Predict (mkTwist2D 1 1 0)] (vzeros, covar_init)
      = Some (state', covar') /\
    symmetric STATE_SIZE covar'.
Proof.
  split; [apply covar_init_symmetric|].
  destruct update_first_sighting_defined as (s1 & P1 & Hupd).
  exists (fst (EKF_Slam_predict (1 / 1000000000000) s1 P1 (mkTwist2D 1 1 0))).
  exists (snd (EKF_Slam_predict (1 / 1000000000000) s1 P1 (mkTwist2D 1 1 0))).
  assert (Hrun :
    run_calls (1 / 1000000000000)
      [Update 1 0 0; Predict (mkTwist2D 1 1 0)] (vzeros, covar_init)
    = Some (fst (EKF_Slam_predict (1 / 1000000000000) s1 P1 (mkTwist2D 1 1 0)),
            snd (EKF_Slam_predict (1 / 1000000000000) s1 P1 (mkTwist2D 1 1 0)))).
  { simpl. rewrite Hupd. reflexivity. }
  split; [exact Hrun|].
  exact (proj2 (proj2 (covariance_symmetry_invariant (1 / 1000000000000)
                         covar_init (covar_init_symmetric STATE_SIZE)))
           _ _ _ _ Hrun).
Defined.

(** ** The bearing residual *)

Lemma atan2_bounds (y x : R) : - PI <= atan2 y x <= PI.
Proof.
  pose proof PI_RGT_0 as Hpi. unfold atan2.
  pose proof (atan_bound (y / x)) as [Hlo Hhi].
  destruct (Rlt_dec 0 x) as [Hx|Hx]; [lra|].
  destruct (Rlt_dec x 0) as [Hx'|Hx'].
  - assert (Hinv : / x < 0) by (apply Rinv_lt_0_compat; exact Hx').
    destruct (Rle_dec 0 y) as [Hy|Hy].
    + assert (Hq : y / x <= 0) by (unfold Rdiv; nra).
      assert (atan (y / x) <= 0).
      { destruct Hq as [Hq|Hq].
        - pose proof (atan_increasing _ _ Hq). rewrite atan_0 in *. lra.
        - rewrite Hq, atan_0. lra. }
      lra.
    + assert (Hq : 0 < y / x) by (unfold Rdiv; nra).
      pose proof (atan_increasing _ _ Hq). rewrite atan_0 in *. lra.
  - destruct (Rlt_dec 0 y); [lra|]. destruct (Rlt_dec y 0); lra.
Qed.

Lemma atan2_0_minus_1 : atan2 0 (-1) = PI.
Proof.
  unfold atan2.
  destruct (Rlt_dec 0 (-1)) as [H|_]; [lra|].
  destruct (Rlt_dec (-1) 0) as [_|H]; [|lra].
  destruct (Rle_dec 0 0) as [_|H]; [|lra].
  replace (0 / -1) with 0 by field. rewrite atan_0. ring.
Qed.

Lemma atan2_minus_1_0 : atan2 (-1) 0 = - PI / 2.
Proof.
  unfold atan2.
  destruct (Rlt_dec 0 0) as [H|_]; [lra|].
  destruct (Rlt_dec 0 (-1)) as [H|_]; [lra|].
  destruct (Rlt_dec (-1) 0) as [_|H]; [reflexivity|lra].
Qed.

(** C5, as stated, fails.  The robot is at the origin with heading 0 and
    landmark 0 is stored at (0, -1); the marker is seen at (-1, 0).  The
    measured bearing is pi + 0.1, the predicted bearing is -pi/2, and the
    bearing residual is 3*pi/2 + 0.1, outside (-pi, pi].  The update returns
    on this input (from the initial covariance). *)
Lemma bearing_residual_not_normalized :
  bearing_residual (vset vzeros 4 (-1)) (-1) 0 0 = 3 * PI / 2 + 1 / 10 /\
  ~ in_mpi_pi (bearing_residual (vset vzeros 4 (-1)) (-1) 0 0) /\
  exists state' covar',
    EKF_Slam_update (vset vzeros 4 (-1)) covar_init (-1) 0 0
      = Some (state', covar').
Proof.
  pose proof PI_RGT_0 as Hpi.
  assert (Hseen : init_landmark (vset vzeros 4 (-1)) 3
                    (range_of (-1) 0) (bearing_of (-1) 0)
                  = vset vzeros 4 (-1)).
  { apply init_landmark_seen. right. unfold vset, vzeros; simpl. lra. }
  assert (E : bearing_residual (vset vzeros 4 (-1)) (-1) 0 0
              = 3 * PI / 2 + 1 / 10).
  { unfold bearing_residual.
    change (Z.to_nat (marker_index 0)) with 3%nat.
    rewrite Hseen.
    unfold residual, vsub, measurement, vadd, vec2, v_t, z_hat,
      delta_x, delta_y, bearing_of, vset, vzeros; simpl.
    replace (-1 - 0) with (-1) by ring.
    replace (0 - 0) with 0 by ring.
    rewrite atan2_0_minus_1, atan2_minus_1_0.
    replace (- PI / 2 - 0) with (- PI / 2) by ring.
    rewrite normalize_angle_fixed by lra. lra. }
  split; [exact E|]. split.
  - rewrite E. unfold in_mpi_pi. lra.
  - apply update_landmark0_defined. rewrite Hseen.
    unfold sq_dist, delta_x, delta_y, vset, vzeros; simpl. lra.
Qed.

(** C5, amended.  In [EKF_Slam_update] it is the predicted bearing, the
    second component of [z_hat], that is the output of [normalize_angle]
    (and so lies in [-pi, pi]).  The bearing residual added to the state
    through the gain is the plain difference of the measured bearing
    [phi + 0.1] and the predicted bearing; it is not normalized and lies
    between [-2*pi + 0.1] and [2*pi + 0.1]. *)
Theorem bearing_residual_is_plain_difference
  (state : vec) (marker_x marker_y : R) (marker_id : Z) :
  let i := Z.to_nat (marker_index marker_id) in
  let state1 :=
    init_landmark state i (range_of marker_x marker_y)
      (bearing_of marker_x marker_y) in
  let predicted :=
    normalize_angle
      (atan2 (delta_y state1 i) (delta_x state1 i) - state1 0%nat) in
  z_hat state1 i 1%nat = predicted /\
  - PI <= predicted <= PI /\
  bearing_residual state marker_x marker_y marker_id
    = (bearing_of marker_x marker_y + 1 / 10) - predicted /\
  - (2 * PI) + 1 / 10
    <= bearing_residual state marker_x marker_y marker_id
    <= 2 * PI + 1 / 10 /\
  (forall covar state' covar',
     EKF_Slam_update state covar marker_x marker_y marker_id
       = Some (state', covar') ->
     exists K : mat,
       forall j,
         state' j =
         state1 j
         + (K j 0%nat * residual state1 (measurement marker_x marker_y) i 0%nat
            + K j 1%nat
              * bearing_residual state marker_x marker_y marker_id)).
Proof.
  intros i state1 predicted.
  assert (Hp : - PI <= predicted <= PI)
    by apply normalize_angle_closed_range.
  assert (Hr : bearing_residual state marker_x marker_y marker_id
               = (bearing_of marker_x marker_y + 1 / 10) - predicted).
  { unfold bearing_residual, residual, vsub, measurement, vadd, vec2, v_t,
      z_hat, vset, vzeros; simpl. reflexivity. }
  split; [reflexivity|]. split; [exact Hp|]. split; [exact Hr|]. split.
  - rewrite Hr.
    pose proof (atan2_bounds marker_y marker_x) as Hb.
    unfold bearing_of. lra.
  - intros covar state' covar' Hupd.
    apply EKF_Slam_update_inversion in Hupd as [_ Hk].
    apply kalman_step_inversion in Hk as (_ & Si & _ & -> & _).
    fold i. fold state1.
    exists (kalman_gain (jacobian_H state1 i) covar Si).
    intro j. unfold vadd, mvmul, bearing_residual. fold i. fold state1.
    simpl. ring.
Qed.

(** The first sighting of landmark 0 at (1, 0) from the state the
    constructor leaves behind returns, and its result has the stated form. *)
Lemma bearing_residual_is_plain_difference_witness :
  exists (state' : vec) (covar' K : mat),
    EKF_Slam_update vzeros covar_init 1 0 0 = Some (state', covar') /\
    forall j,
      state' j =
      init_landmark vzeros 3 (range_of 1 0) (bearing_of 1 0) j
      + (K j 0%nat
         * residual (init_landmark vzeros 3 (range_of 1 0) (bearing_of 1 0))
             (measurement 1 0) 3 0%nat
         + K j 1%nat * bearing_residual vzeros 1 0 0).
Proof.
  destruct update_first_sighting_defined as (s1 & P1 & Hupd).
  destruct (proj2 (proj2 (proj2 (proj2
              (bearing_residual_is_plain_difference vzeros 1 0 0))))
              covar_init s1 P1 Hupd) as [K HK].
  exists s1, P1, K. split; [exact Hupd|exact HK].
Defined.

(** * Further properties of the code *)

(** ** Transform2D: inverse, action on vectors and twists, composition *)

Lemma cos2_sin2_one (a : R) : cos a * cos a + sin a * sin a = 1.
Proof. pose proof (sin2_cos2 a) as H. unfold Rsqr in H. lra. Qed.

(** X1.  [inv] is an involution: the inverse of the inverse of a transform is
    the transform itself. *)
Theorem inv_involutive (T : Transform2D) : inv (inv T) = T.
Proof.
  destruct T as [[tx ty] th].
  pose proof (cos2_sin2_one th) as Hp.
  apply Transform2D_eq; unfold inv; simpl.
  - rewrite cos_neg, sin_neg.
    transitivity (tx * (cos th * cos th + sin th * sin th));
      [ring|rewrite Hp; ring].
  - rewrite cos_neg, sin_neg.
    transitivity (ty * (cos th * cos th + sin th * sin th));
      [ring|rewrite Hp; ring].
  - ring.
Qed.

(** X2.  On a [Vector2D], applying a transform and then its inverse (or the
    inverse and then the transform) gives the vector back. *)
Theorem apply_vector_inv_round_trip (T : Transform2D) (v : Vector2D) :
  apply_vector (inv T) (apply_vector T v) = v /\
  apply_vector T (apply_vector (inv T) v) = v.
Proof.
  destruct T as [[tx ty] th], v as [vx vy].
  pose proof (cos2_sin2_one th) as Hp.
  unfold apply_vector, inv; simpl. rewrite cos_neg, sin_neg.
  split; f_equal.
  - transitivity (vx * (cos th * cos th + sin th * sin th));
      [ring|rewrite Hp; ring].
  - transitivity (vy * (cos th * cos th + sin th * sin th));
      [ring|rewrite Hp; ring].
  - transitivity
      (tx + (vx - tx) * (cos th * cos th + sin th * sin th));
      [ring|rewrite Hp; ring].
  - transitivity
      (ty + (vy - ty) * (cos th * cos th + sin th * sin th));
      [ring|rewrite Hp; ring].
Qed.

(** X3.  On a [Twist2D], the adjoint action of a transform followed by that
    of its inverse (or the other way round) gives the twist back, and the
    angular component is never changed. *)
Theorem apply_twist_inv_round_trip (T : Transform2D) (V : Twist2D) :
  omega (apply_twist T V) = omega V /\
  apply_twist (inv T) (apply_twist T V) = V /\
  apply_twist T (apply_twist (inv T) V) = V.
Proof.
  destruct T as [[tx ty] th], V as [w x y].
  pose proof (cos2_sin2_one th) as Hp.
  unfold apply_twist, inv; simpl. rewrite cos_neg, sin_neg.
  split; [reflexivity|]. split; f_equal.
  - transitivity (x * (cos th * cos th + sin th * sin th));
      [ring|rewrite Hp; ring].
  - transitivity (y * (cos th * cos th + sin th * sin th));
      [ring|rewrite Hp; ring].
  - transitivity
      (x * (cos th * cos th + sin th * sin th)
       + (w * ty) * (1 - (cos th * cos th + sin th * sin th)));
      [ring|rewrite Hp; ring].
  - transitivity
      (y * (cos th * cos th + sin th * sin th)
       - (w * tx) * (1 - (cos th * cos th + sin th * sin th)));
      [ring|rewrite Hp; ring].
Qed.

(** X4.  When the right operand is a pure translation (rotation 0) or a pure
    rotation (translation (0, 0)), [operator*] is the composition of the
    actions on vectors: applying [lhs * rhs] is applying [rhs], then
    [lhs]. *)
Theorem mul_composes_actions (lhs rhs : Transform2D) (v : Vector2D) :
  rot2d rhs = 0 \/ trans2d rhs = Vector2D_zero ->
  apply_vector (mul lhs rhs) v = apply_vector lhs (apply_vector rhs v).
Proof.
  destruct lhs as [[ax ay] ath], rhs as [[bx by_] bth], v as [vx vy].
  unfold apply_vector, mul, mul_assign, Vector2D_zero; simpl.
  intros [Hrot|Htr].
  - subst bth. replace (ath + 0) with ath by ring.
    rewrite cos_0, sin_0. f_equal; ring.
  - injection Htr as -> ->.
    rewrite cos_plus, sin_plus. f_equal; ring.
Qed.

(** A transform of rotation pi and translation (1, 2), composed with the
    translation by (3, 4). *)
Lemma mul_composes_actions_witness :
  (rot2d (Transform2D_of_trans (mkVector2D 3 4)) = 0
   \/ trans2d (Transform2D_of_trans (mkVector2D 3 4)) = Vector2D_zero) /\
  apply_vector
    (mul (Transform2D_of_both (mkVector2D 1 2) PI)
         (Transform2D_of_trans (mkVector2D 3 4)))
    (mkVector2D 5 6)
  = apply_vector (Transform2D_of_both (mkVector2D 1 2) PI)
      (apply_vector (Transform2D_of_trans (mkVector2D 3 4)) (mkVector2D 5 6)).
Proof.
  split; [left; reflexivity|].
  apply (mul_composes_actions
           (Transform2D_of_both (mkVector2D 1 2) PI)
           (Transform2D_of_trans (mkVector2D 3 4)) (mkVector2D 5 6)).
  left; reflexivity.
Defined.

(** ** The covariance built by the constructor *)

Lemma fold_mset_diag (c : R) (l : list nat) :
  forall (M : mat) (a b : nat),
    fold_left (fun covar i => mset covar i i c) l M a b =
    if Nat.eqb a b && existsb (Nat.eqb a) l then c else M a b.
Proof.
  induction l as [|i l IH]; intros M a b; simpl.
  - rewrite andb_false_r. reflexivity.
  - rewrite IH. unfold mset.
    destruct (Nat.eqb_spec a b) as [->|Hab]; simpl.
    + destruct (Nat.eqb_spec b i) as [->|Hbi]; simpl.
      * destruct (existsb (Nat.eqb i) l); reflexivity.
      * reflexivity.
    + destruct (Nat.eqb_spec a i) as [->|Hai]; simpl; [|reflexivity].
      destruct (Nat.eqb_spec b i) as [->|Hbi]; [congruence|reflexivity].
Qed.

Lemma existsb_eqb_seq (a start len : nat) :
  existsb (Nat.eqb a) (seq start len)
  = Nat.leb start a && Nat.ltb a (start + len).
Proof.
  apply eq_iff_eq_true.
  rewrite existsb_exists, andb_true_iff, Nat.leb_le, Nat.ltb_lt.
  split.
  - intros (x & Hin & Hx). apply Nat.eqb_eq in Hx. subst x.
    apply in_seq in Hin. lia.
  - intro H. exists a. split; [apply in_seq; lia|apply Nat.eqb_refl].
Qed.

(** X5.  The constructor's loop leaves a diagonal covariance: 1e9 on the
    diagonal of every landmark entry (indices 3 to [STATE_SIZE - 1]), zero on
    the diagonal of the robot pose and everywhere off the diagonal; it is
    the matrix [covar_init], and it is symmetric. *)
Theorem covar_constructed_entries :
  (forall i j, covar_constructed i j = covar_init i j) /\
  (forall i j, i <> j -> covar_constructed i j = 0) /\
  (forall i, (i < 3)%nat -> covar_constructed i i = 0) /\
  (forall i, (3 <= i < STATE_SIZE)%nat ->
     covar_constructed i i = 1000000000) /\
  symmetric STATE_SIZE covar_constructed.
Proof.
  assert (E : forall i j, covar_constructed i j = covar_init i j).
  { intros i j. unfold covar_constructed, covar_init.
    rewrite fold_mset_diag, existsb_eqb_seq.
    replace (3 + (STATE_SIZE - 3))%nat with STATE_SIZE
      by (unfold STATE_SIZE, MAX_OBSTACLES; lia).
    rewrite andb_assoc. reflexivity. }
  split; [exact E|]. split; [|split; [|split]].
  - intros i j Hij. rewrite E. unfold covar_init.
    replace (Nat.eqb i j) with false; [reflexivity|].
    symmetry. apply Nat.eqb_neq. exact Hij.
  - intros i Hi. rewrite E. unfold covar_init.
    replace (Nat.leb 3 i) with false; [rewrite andb_false_r; reflexivity|].
    symmetry. apply Nat.leb_gt. exact Hi.
  - intros i [Hlo Hhi]. rewrite E. unfold covar_init.
    rewrite Nat.eqb_refl.
    replace (Nat.leb 3 i) with true by (symmetry; apply Nat.leb_le; exact Hlo).
    replace (Nat.ltb i STATE_SIZE) with true
      by (symmetry; apply Nat.ltb_lt; exact Hhi).
    reflexivity.
  - intros i j Hi Hj. rewrite !E.
    apply (covar_init_symmetric STATE_SIZE i j Hi Hj).
Qed.

(** ** EKF predict: what it leaves alone, and how far it moves the robot *)

(** Outside rows 1 and 2, [A_t] is the identity, whatever the twist. *)
Lemma predict_jacobian_identity_rows (epsilon : R) (state : vec)
  (twist : Twist2D) (i l : nat) :
  i <> 1%nat -> i <> 2%nat ->
  predict_jacobian epsilon state twist i l = eye i l.
Proof.
  intros H1 H2. unfold predict_jacobian.
  apply Nat.eqb_neq in H1, H2.
  destruct (almost_equal epsilon (omega twist) 0);
    unfold madd, mset, mzeros; rewrite H1, H2; simpl; ring.
Qed.

(** X6.  [EKF_Slam_predict] writes only the robot pose.  Outside rows and
    columns 1 and 2 (the robot's x and y) the covariance changes by [Q_bar]
    alone; every landmark component of the state and every covariance entry
    between two landmark components is left as it was, whatever the twist. *)
Theorem predict_frame (epsilon : R) (state : vec) (covar : mat)
  (twist : Twist2D) (i j : nat) :
  (i < STATE_SIZE)%nat -> (j < STATE_SIZE)%nat ->
  i <> 1%nat -> i <> 2%nat -> j <> 1%nat -> j <> 2%nat ->
  let state' := fst (EKF_Slam_predict epsilon state covar twist) in
  let covar' := snd (EKF_Slam_predict epsilon state covar twist) in
  covar' i j = covar i j + Q_bar i j /\
  ((3 <= i)%nat -> state' i = state i) /\
  ((3 <= i)%nat -> (3 <= j)%nat -> covar' i j = covar i j).
Proof.
  intros Hi Hj Hi1 Hi2 Hj1 Hj2 state' covar'.
  assert (HC : covar' i j = covar i j + Q_bar i j).
  { subst covar'. unfold EKF_Slam_predict; simpl. unfold madd. f_equal.
    rewrite (mmul_ext STATE_SIZE _ (mmul STATE_SIZE eye covar) _ (mtrans eye)).
    - rewrite mmul_eye_tr_r by exact Hj. apply mmul_eye_l. exact Hi.
    - intros k _. apply mmul_ext; [|reflexivity].
      intros l _. apply predict_jacobian_identity_rows; assumption.
    - intros k _. unfold mtrans.
      apply predict_jacobian_identity_rows; assumption. }
  split; [exact HC|]. split.
  - intro H3. subst state'. unfold EKF_Slam_predict; simpl.
    unfold predict_mean.
    destruct (almost_equal epsilon (omega twist) 0); unfold vset;
      do 3 (destruct i as [|i]; [lia|]); reflexivity.
  - intros H3i H3j. rewrite HC, Q_bar_entries.
    replace (Nat.ltb i 3) with false
      by (symmetry; apply Nat.ltb_ge; exact H3i).
    rewrite andb_false_r. ring.
Qed.

(** An arc twist on the state the constructor leaves behind: the entries of
    landmarks 0 and 1. *)
Lemma predict_frame_witness :
  (3 < STATE_SIZE)%nat /\ (5 < STATE_SIZE)%nat /\
  fst (EKF_Slam_predict (1 / 1000000000000) vzeros covar_init
         (mkTwist2D 1 1 0)) 3%nat = vzeros 3%nat /\
  snd (EKF_Slam_predict (1 / 1000000000000) vzeros covar_init
         (mkTwist2D 1 1 0)) 3%nat 5%nat = covar_init 3%nat 5%nat.
Proof.
  assert (H3 : (3 < STATE_SIZE)%nat) by (unfold STATE_SIZE, MAX_OBSTACLES; lia).
  assert (H5 : (5 < STATE_SIZE)%nat) by (unfold STATE_SIZE, MAX_OBSTACLES; lia).
  split; [exact H3|]. split; [exact H5|].
  pose proof (predict_frame (1 / 1000000000000) vzeros covar_init
                (mkTwist2D 1 1 0) 3 5 H3 H5
                ltac:(lia) ltac:(lia) ltac:(lia) ltac:(lia)) as (_ & Hs & Hc).
  split; [apply Hs; lia|apply Hc; lia].
Defined.

(** X7.  The mean update moves the robot along a straight segment of length
    [|twist.x|] with the heading unchanged in the zero-rate branch, and in
    the other branch along a chord of squared length
    [2 (x/omega)^2 (1 - cos omega)] while the heading grows by [omega]; the
    landmark entries and [twist.y] play no part. *)
Theorem predict_mean_displacement (epsilon : R) (state : vec)
  (twist : Twist2D) :
  let state' := predict_mean epsilon state twist in
  let dx := state' 1%nat - state 1%nat in
  let dy := state' 2%nat - state 2%nat in
  state' = predict_mean epsilon state
             (mkTwist2D (omega twist) (tw_x twist) 0) /\
  if almost_equal epsilon (omega twist) 0 then
    state' 0%nat = state 0%nat /\
    dx * dx + dy * dy = tw_x twist * tw_x twist
  else
    state' 0%nat = state 0%nat + omega twist /\
    dx * dx + dy * dy
    = 2 * (tw_x twist / omega twist) * (tw_x twist / omega twist)
      * (1 - cos (omega twist)).
Proof.
  cbv zeta. split; [reflexivity|].
  unfold predict_mean.
  destruct (almost_equal epsilon (omega twist) 0); unfold vset; simpl.
  - split; [reflexivity|].
    pose proof (cos2_sin2_one (state 0%nat)) as Hp.
    transitivity
      (tw_x twist * tw_x twist
       * (cos (state 0%nat) * cos (state 0%nat)
          + sin (state 0%nat) * sin (state 0%nat)));
      [ring|rewrite Hp; ring].
  - split; [reflexivity|].
    set (th := state 0%nat). set (w := omega twist).
    set (q := tw_x twist / w).
    pose proof (cos2_sin2_one th) as Hp.
    pose proof (cos2_sin2_one (th + w)) as Hq.
    assert (Hc : cos w = cos (th + w) * cos th + sin (th + w) * sin th).
    { rewrite <- cos_minus. f_equal. ring. }
    rewrite Hc.
    transitivity
      (q * q
       * ((cos (th + w) * cos (th + w) + sin (th + w) * sin (th + w))
          + (cos th * cos th + sin th * sin th)
          - 2 * (cos (th + w) * cos th + sin (th + w) * sin th)));
      [ring|rewrite Hp, Hq; ring].
Qed.

(** X8.  The heading is never wrapped by the predict step: after [n] predict
    calls with a twist of non-zero angular rate the heading entry is the
    heading on entry plus [n] times [twist.omega], and the landmark entries
    are as on entry. *)
Theorem predict_heading_accumulates (epsilon : R) (twist : Twist2D) (n : nat) :
  almost_equal epsilon (omega twist) 0 = false ->
  forall state covar,
  exists st',
    run_calls epsilon (repeat (Predict twist) n) (state, covar) = Some st' /\
    fst st' 0%nat = state 0%nat + INR n * omega twist /\
    (forall k, (3 <= k)%nat -> fst st' k = state k).
Proof.
  intro Hw. induction n as [|n IH]; intros state covar.
  - exists (state, covar). simpl. repeat split. ring.
  - destruct (IH (fst (EKF_Slam_predict epsilon state covar twist))
                 (snd (EKF_Slam_predict epsilon state covar twist)))
      as (st' & Hrun & H0 & Hk).
    exists st'. split; [|split].
    + simpl repeat. simpl run_calls. exact Hrun.
    + rewrite H0, S_INR. unfold EKF_Slam_predict, predict_mean; simpl.
      rewrite Hw. unfold vset; simpl. ring.
    + intros k H3. rewrite Hk by exact H3.
      unfold EKF_Slam_predict, predict_mean; simpl.
      rewrite Hw. unfold vset.
      do 3 (destruct k as [|k]; [lia|]). reflexivity.
Qed.

(** Seven predict calls with angular rate 1 from heading 0: the heading entry
    is 7, beyond pi. *)
Lemma predict_heading_accumulates_witness :
  almost_equal (1 / 1000000000000) (omega (mkTwist2D 1 1 0)) 0 = false /\
  exists st',
    run_calls (1 / 1000000000000) (repeat (Predict (mkTwist2D 1 1 0)) 7)
      (vzeros, covar_init) = Some st' /\
    fst st' 0%nat = 7.
Proof.
  assert (Hfar : almost_equal (1 / 1000000000000)
                   (omega (mkTwist2D 1 1 0)) 0 = false).
  { apply almost_equal_far. simpl. rewrite Rabs_R1. lra. }
  split; [exact Hfar|].
  destruct (predict_heading_accumulates (1 / 1000000000000)
              (mkTwist2D 1 1 0) 7 Hfar vzeros covar_init)
    as (st' & Hrun & H0 & _).
  exists st'. split; [exact Hrun|].
  rewrite H0. unfold vzeros. simpl. ring.
Defined.

(** ** Range and bearing of a marker *)

Lemma sqrt_sum_squares (x y : R) :
  x <> 0 -> sqrt (x ^ 2 + y ^ 2) = Rabs x * sqrt (1 + (y / x)²).
Proof.
  intro Hx.
  replace (x ^ 2 + y ^ 2) with (x² * (1 + (y / x)²))
    by (unfold Rsqr; field; exact Hx).
  rewrite sqrt_mult.
  - rewrite sqrt_Rsqr_abs. reflexivity.
  - apply Rle_0_sqr.
  - pose proof (Rle_0_sqr (y / x)). lra.
Qed.

Lemma sqrt_one_plus_sqr_pos (t : R) : 0 < sqrt (1 + t²).
Proof. apply sqrt_lt_R0. pose proof (Rle_0_sqr t). lra. Qed.

(** The range and bearing computed by [EKF_Slam_update] are polar
    coordinates of the marker position. *)
Lemma range_bearing_polar (x y : R) :
  range_of x y * cos (bearing_of x y) = x /\
  range_of x y * sin (bearing_of x y) = y.
Proof.
  unfold range_of, bearing_of, atan2.
  destruct (Rlt_dec 0 x) as [Hx|Hx].
  - rewrite sqrt_sum_squares by lra.
    rewrite Rabs_right by lra.
    rewrite cos_atan, sin_atan.
    pose proof (sqrt_one_plus_sqr_pos (y / x)) as Hs.
    split; field; lra.
  - destruct (Rlt_dec x 0) as [Hx'|Hx'].
    + rewrite sqrt_sum_squares by lra.
      rewrite Rabs_left by lra.
      pose proof (sqrt_one_plus_sqr_pos (y / x)) as Hs.
      destruct (Rle_dec 0 y) as [Hy|Hy].
      * rewrite neg_cos, neg_sin, cos_atan, sin_atan. split; field; lra.
      * rewrite cos_minus, sin_minus, cos_PI, sin_PI, cos_atan, sin_atan.
        split; field; lra.
    + assert (x = 0) by lra. subst x.
      replace (0 ^ 2 + y ^ 2) with (y ^ 2) by ring.
      destruct (Rlt_dec 0 y) as [Hy|Hy].
      * rewrite sqrt_pow2 by lra. rewrite cos_PI2, sin_PI2. split; ring.
      * destruct (Rlt_dec y 0) as [Hy'|Hy'].
        -- replace (y ^ 2) with ((- y) ^ 2) by ring.
           rewrite sqrt_pow2 by lra.
           replace (- PI / 2) with (- (PI / 2)) by field.
           rewrite cos_neg, sin_neg, cos_PI2, sin_PI2. split; ring.
        -- assert (y = 0) by lra. subst y.
           replace (0 ^ 2) with 0 by ring. rewrite sqrt_0. split; ring.
Qed.

(** ** EKF update: the first sighting of a landmark *)

(** The slot written by the initialisation, in Cartesian form. *)
Lemma first_sighting_coords (state : vec) (marker_x marker_y : R) (i : nat) :
  (3 <= i)%nat -> state i = 0 -> state (i + 1)%nat = 0 ->
  let state1 :=
    init_landmark state i (range_of marker_x marker_y)
      (bearing_of marker_x marker_y) in
  state1 i
    = state 1%nat
      + (marker_x * cos (state 0%nat) - marker_y * sin (state 0%nat)) /\
  state1 (i + 1)%nat
    = state 2%nat
      + (marker_x * sin (state 0%nat) + marker_y * cos (state 0%nat)) /\
  state1 0%nat = state 0%nat /\
  state1 1%nat = state 1%nat /\
  state1 2%nat = state 2%nat.
Proof.
  intros Hi Hx Hy state1. subst state1.
  destruct (init_landmark_unseen state i (range_of marker_x marker_y)
              (bearing_of marker_x marker_y) Hi Hx Hy) as (E1 & E2 & E3).
  destruct (range_bearing_polar marker_x marker_y) as [Hc Hs].
  set (r := range_of marker_x marker_y) in *.
  set (phi := bearing_of marker_x marker_y) in *.
  rewrite E1, E2, !E3 by lia.
  rewrite cos_plus, sin_plus.
  repeat split.
  - transitivity
      (state 1%nat
       + (r * cos phi * cos (state 0%nat) - r * sin phi * sin (state 0%nat)));
      [ring|rewrite Hc, Hs; reflexivity].
  - transitivity
      (state 2%nat
       + (r * sin phi * cos (state 0%nat) + r * cos phi * sin (state 0%nat)));
      [ring|rewrite Hc, Hs; ring].
Qed.

Lemma marker_index_landmark (k : Z) :
  (0 <= k < Z.of_nat MAX_OBSTACLES)%Z ->
  (3 <= Z.to_nat (marker_index k))%nat.
Proof. intro Hk. unfold marker_index. lia. Qed.

(** X9.  On the first sighting of landmark [k] (its slot holds (0, 0)), the
    slot is set to the marker position carried from the robot frame to the
    map frame: the vector action of the transform [map_tf] that
    [map_tf_broadcaster] builds from the state, applied to
    (marker_x, marker_y). *)
Theorem first_sighting_position (state : vec) (marker_x marker_y : R)
  (k : Z) :
  (0 <= k < Z.of_nat MAX_OBSTACLES)%Z ->
  let i := Z.to_nat (marker_index k) in
  state i = 0 -> state (i + 1)%nat = 0 ->
  let state1 :=
    init_landmark state i (range_of marker_x marker_y)
      (bearing_of marker_x marker_y) in
  mkVector2D (state1 i) (state1 (i + 1)%nat)
  = apply_vector (map_tf state) (mkVector2D marker_x marker_y).
Proof.
  intros Hk i Hx Hy state1.
  destruct (first_sighting_coords state marker_x marker_y i
              (marker_index_landmark k Hk) Hx Hy) as (E1 & E2 & _).
  fold state1 in E1, E2. rewrite E1, E2.
  unfold apply_vector, map_tf; simpl. f_equal; ring.
Qed.

(** The robot at (2, 3) with heading pi/2 sees landmark 0 at (1, 0): the
    slot is set to (2, 4). *)
Lemma first_sighting_position_witness :
  (0 <= 0 < Z.of_nat MAX_OBSTACLES)%Z /\
  let state := vset (vset (vset vzeros 0 (PI / 2)) 1 2) 2 3 in
  let state1 := init_landmark state 3 (range_of 1 0) (bearing_of 1 0) in
  mkVector2D (state1 3%nat) (state1 4%nat) = mkVector2D 2 4.
Proof.
  assert (Hk : (0 <= 0 < Z.of_nat MAX_OBSTACLES)%Z)
    by (unfold MAX_OBSTACLES; lia).
  split; [exact Hk|]. cbv zeta.
  pose proof (first_sighting_position
                (vset (vset (vset vzeros 0 (PI / 2)) 1 2) 2 3) 1 0 0 Hk
                eq_refl eq_refl) as H.
  refine (eq_trans H _).
  unfold apply_vector, map_tf, vset, vzeros; simpl.
  rewrite cos_PI2, sin_PI2. f_equal; ring.
Defined.

(** X10.  On the first sighting of landmark [k] the squared distance used
    by the measurement model is [marker_x^2 + marker_y^2], the predicted
    range is the measured range without the noise term, and the range
    component of the residual is exactly the constant [v_t(0) = 0.1]. *)
Theorem first_sighting_range_residual (state : vec) (marker_x marker_y : R)
  (k : Z) :
  (0 <= k < Z.of_nat MAX_OBSTACLES)%Z ->
  let i := Z.to_nat (marker_index k) in
  state i = 0 -> state (i + 1)%nat = 0 ->
  let state1 :=
    init_landmark state i (range_of marker_x marker_y)
      (bearing_of marker_x marker_y) in
  sq_dist state1 i = marker_x ^ 2 + marker_y ^ 2 /\
  z_hat state1 i 0%nat = range_of marker_x marker_y /\
  residual state1 (measurement marker_x marker_y) i 0%nat = 1 / 10.
Proof.
  intros Hk i Hx Hy state1.
  destruct (first_sighting_coords state marker_x marker_y i
              (marker_index_landmark k Hk) Hx Hy) as (E1 & E2 & _ & E4 & E5).
  fold state1 in E1, E2, E4, E5.
  pose proof (cos2_sin2_one (state 0%nat)) as Hp.
  assert (Hd : sq_dist state1 i = marker_x ^ 2 + marker_y ^ 2).
  { unfold sq_dist, delta_x, delta_y. rewrite E1, E2, E4, E5.
    transitivity
      ((marker_x ^ 2 + marker_y ^ 2)
       * (cos (state 0%nat) * cos (state 0%nat)
          + sin (state 0%nat) * sin (state 0%nat)));
      [ring|rewrite Hp; ring]. }
  assert (Hz : z_hat state1 i 0%nat = range_of marker_x marker_y).
  { unfold z_hat, vec2. rewrite Hd. reflexivity. }
  split; [exact Hd|]. split; [exact Hz|].
  unfold residual, vsub. rewrite Hz.
  unfold measurement, vadd, vec2, v_t, vset, vzeros; simpl. ring.
Qed.

(** The constructor's state and a marker at (3, 4): squared distance 25. *)
Lemma first_sighting_range_residual_witness :
  (0 <= 0 < Z.of_nat MAX_OBSTACLES)%Z /\
  sq_dist (init_landmark vzeros 3 (range_of 3 4) (bearing_of 3 4)) 3 = 25 /\
  residual (init_landmark vzeros 3 (range_of 3 4) (bearing_of 3 4))
    (measurement 3 4) 3 0%nat = 1 / 10.
Proof.
  assert (Hk : (0 <= 0 < Z.of_nat MAX_OBSTACLES)%Z)
    by (unfold MAX_OBSTACLES; lia).
  split; [exact Hk|].
  destruct (first_sighting_range_residual vzeros 3 4 0 Hk eq_refl eq_refl)
    as (Hd & _ & Hr).
  split; [refine (eq_trans Hd _); ring|exact Hr].
Defined.

(** ** EKF update: entries it leaves alone *)

(** [H] is zero outside the three robot-pose columns and the two columns of
    the observed landmark. *)
Lemma jacobian_H_columns (state : vec) (i a l : nat) :
  l <> 0%nat -> l <> 1%nat -> l <> 2%nat -> l <> i -> l <> (i + 1)%nat ->
  jacobian_H state i a l = 0.
Proof.
  intros H0 H1 H2 Hi Hi1.
  apply Nat.eqb_neq in H0, H1, H2, Hi, Hi1.
  unfold jacobian_H, mset, mzeros.
  rewrite H0, H1, H2, Hi, Hi1, !andb_false_r. reflexivity.
Qed.

(** The initialisation writes the two slot entries and nothing else. *)
Lemma init_landmark_other (state : vec) (i : nat) (r phi : R) (j : nat) :
  j <> i -> j <> (i + 1)%nat -> init_landmark state i r phi j = state j.
Proof.
  intros Hi Hi1. apply Nat.eqb_neq in Hi, Hi1. unfold init_landmark.
  destruct (Req_EM_T (state i) 0); [|reflexivity].
  destruct (Req_EM_T (state (i + 1)%nat) 0); [|reflexivity].
  unfold vset. rewrite Hi, Hi1. reflexivity.
Qed.

(** A row of the covariance that is zero in the columns where [H] is not
    gives a zero row of the gain. *)
Lemma kalman_gain_row_zero (state : vec) (covar Si : mat) (i j a : nat) :
  (forall l, l = 0%nat \/ l = 1%nat \/ l = 2%nat \/ l = i \/ l = (i + 1)%nat ->
     covar j l = 0) ->
  kalman_gain (jacobian_H state i) covar Si j a = 0.
Proof.
  intro Hz. unfold kalman_gain, mmul at 1.
  rewrite (sum_n_ext 2 _ (fun _ => 0)); [apply sum_n_zero|].
  intros b _.
  replace (mmul STATE_SIZE covar (mtrans (jacobian_H state i)) j b) with 0;
    [ring|].
  symmetry. unfold mmul, mtrans.
  rewrite (sum_n_ext STATE_SIZE _ (fun _ => 0)); [apply sum_n_zero|].
  intros l _.
  destruct (Nat.eq_dec l 0) as [E|N0]; [rewrite Hz by tauto; ring|].
  destruct (Nat.eq_dec l 1) as [E|N1]; [rewrite Hz by tauto; ring|].
  destruct (Nat.eq_dec l 2) as [E|N2]; [rewrite Hz by tauto; ring|].
  destruct (Nat.eq_dec l i) as [E|Ni]; [rewrite Hz by tauto; ring|].
  destruct (Nat.eq_dec l (i + 1)) as [E|Ni1]; [rewrite Hz by tauto; ring|].
  rewrite jacobian_H_columns by assumption. ring.
Qed.

(** X11.  An update of landmark [k] leaves alone every state entry [j],
    other than the slot of [k], whose covariance row is zero in the
    robot-pose columns and in the two columns of the slot: the state entry
    and the whole covariance row [j] come out as they went in. *)
Theorem update_leaves_uncorrelated_entry
  (state : vec) (covar : mat) (marker_x marker_y : R) (k : Z)
  (state' : vec) (covar' : mat) (j : nat) :
  EKF_Slam_update state covar marker_x marker_y k = Some (state', covar') ->
  (j < STATE_SIZE)%nat ->
  j <> Z.to_nat (marker_index k) ->
  j <> (Z.to_nat (marker_index k) + 1)%nat ->
  (forall l,
     l = 0%nat \/ l = 1%nat \/ l = 2%nat \/ l = Z.to_nat (marker_index k)
     \/ l = (Z.to_nat (marker_index k) + 1)%nat ->
     covar j l = 0) ->
  state' j = state j /\ forall c, covar' j c = covar j c.
Proof.
  intros Hupd Hj Hji Hji1 Hz.
  apply EKF_Slam_update_inversion in Hupd as [_ Hk].
  apply kalman_step_inversion in Hk as (_ & Si & _ & Es & Ec).
  subst state' covar'.
  set (i := Z.to_nat (marker_index k)) in *.
  set (state1 := init_landmark state i (range_of marker_x marker_y)
                   (bearing_of marker_x marker_y)) in *.
  assert (HK : forall a,
             kalman_gain (jacobian_H state1 i) covar Si j a = 0)
    by (intro a; apply kalman_gain_row_zero; exact Hz).
  split.
  - unfold vadd, mvmul. simpl. rewrite !HK.
    unfold state1. rewrite init_landmark_other by assumption. ring.
  - intro c.
    rewrite (mmul_ext STATE_SIZE _ eye _ covar).
    + apply mmul_eye_l. exact Hj.
    + intros l _. unfold msub, mmul. simpl. rewrite !HK. ring.
    + reflexivity.
Qed.

(** The first sighting of landmark 0 from the constructor's state leaves the
    entry 5 (landmark 1) and its covariance row as they were. *)
Lemma update_leaves_uncorrelated_entry_witness :
  exists state' covar',
    EKF_Slam_update vzeros covar_init 1 0 0 = Some (state', covar') /\
    state' 5%nat = 0 /\
    covar' 5%nat 5%nat = 1000000000.
Proof.
  destruct update_first_sighting_defined as (s1 & P1 & Hupd).
  exists s1, P1. split; [exact Hupd|].
  assert (H5 : (5 < STATE_SIZE)%nat) by (unfold STATE_SIZE, MAX_OBSTACLES; lia).
  assert (Hn : 5%nat <> Z.to_nat (marker_index 0))
    by (change (Z.to_nat (marker_index 0)) with 3%nat; lia).
  assert (Hn1 : 5%nat <> (Z.to_nat (marker_index 0) + 1)%nat)
    by (change (Z.to_nat (marker_index 0)) with 3%nat; lia).
  assert (Hz : forall l,
             l = 0%nat \/ l = 1%nat \/ l = 2%nat
             \/ l = Z.to_nat (marker_index 0)
             \/ l = (Z.to_nat (marker_index 0) + 1)%nat ->
             covar_init 5%nat l = 0).
  { change (Z.to_nat (marker_index 0)) with 3%nat.
    intros l [E | [E | [E | [E | E]]]]; subst l; reflexivity. }
  destruct (update_leaves_uncorrelated_entry vzeros covar_init 1 0 0 s1 P1 5
              Hupd H5 Hn Hn1 Hz) as [Hs Hc].
  split; [exact Hs|]. rewrite Hc. reflexivity.
Defined.

(** ** fake_sensor_callback *)

Lemma update_markers_as_calls (epsilon : R) (markers : list Marker) :
  forall st,
    update_markers markers st =
    run_calls epsilon
      (map (fun m => Update (position_x m) (position_y m) (id m))
         (filter (fun m => negb (Z.eqb (action m) DELETE)) markers))
      st.
Proof.
  induction markers as [|m ms IH]; intro st; simpl; [reflexivity|].
  destruct (Z.eqb (action m) DELETE); simpl.
  - apply IH.
  - destruct (EKF_Slam_update (fst st) (snd st) (position_x m)
                (position_y m) (id m)) as [st'|]; [apply IH|reflexivity].
Qed.

(** X12.  [fake_sensor_callback] is one predict followed by one update per
    marker whose action is not [DELETE], in the order of the message; the
    markers flagged [DELETE] are not read at all (neither position nor
    id). *)
Theorem fake_sensor_callback_as_calls (epsilon : R) (robot_twist : Twist2D)
  (markers : list Marker) (st : vec * mat) :
  fake_sensor_callback epsilon robot_twist markers st =
  run_calls epsilon
    (Predict robot_twist
     :: map (fun m => Update (position_x m) (position_y m) (id m))
          (filter (fun m => negb (Z.eqb (action m) DELETE)) markers))
    st.
Proof.
  unfold fake_sensor_callback. simpl.
  apply update_markers_as_calls.
Qed.

Lemma update_markers_bad_id (markers : list Marker) (m : Marker) :
  In m markers ->
  action m <> DELETE ->
  index_ok (marker_index (id m)) = false ->
  forall st, update_markers markers st = None.
Proof.
  intros Hin Hact Hbad.
  induction markers as [|m0 ms IH]; [contradiction|].
  intro st. simpl.
  destruct Hin as [->|Hin].
  - replace (Z.eqb (action m) DELETE) with false
      by (symmetry; apply Z.eqb_neq; exact Hact).
    unfold EKF_Slam_update. rewrite Hbad. reflexivity.
  - destruct (Z.eqb (action m0) DELETE); [apply IH; exact Hin|].
    destruct (EKF_Slam_update (fst st) (snd st) (position_x m0)
                (position_y m0) (id m0)) as [st'|];
      [apply IH; exact Hin|reflexivity].
Qed.

(** X13.  One marker that is not flagged [DELETE] and whose id puts the slot
    outside the state vector makes the whole callback fail, wherever the
    marker stands in the message and whatever the other markers are. *)
Theorem fake_sensor_callback_bad_id (epsilon : R) (robot_twist : Twist2D)
  (markers : list Marker) (m : Marker) (st : vec * mat) :
  In m markers ->
  action m <> DELETE ->
  index_ok (marker_index (id m)) = false ->
  fake_sensor_callback epsilon robot_twist markers st = None.
Proof.
  intros Hin Hact Hbad. unfold fake_sensor_callback.
  apply (update_markers_bad_id markers m Hin Hact Hbad).
Qed.

(** A message of three markers, the last one with id 30. *)
Lemma fake_sensor_callback_bad_id_witness :
  In (mkMarker 0 2 0 30)
     [mkMarker 0 1 0 0; mkMarker 2 0 0 99; mkMarker 0 2 0 30] /\
  action (mkMarker 0 2 0 30) <> DELETE /\
  index_ok (marker_index (id (mkMarker 0 2 0 30))) = false /\
  fake_sensor_callback (1 / 1000000000000) (mkTwist2D 0 0 0)
    [mkMarker 0 1 0 0; mkMarker 2 0 0 99; mkMarker 0 2 0 30]
    (vzeros, covar_init) = None.
Proof.
  assert (Hin : In (mkMarker 0 2 0 30)
                  [mkMarker 0 1 0 0; mkMarker 2 0 0 99; mkMarker 0 2 0 30])
    by (simpl; tauto).
  assert (Hact : action (mkMarker 0 2 0 30) <> DELETE)
    by (simpl; unfold DELETE; lia).
  assert (Hbad : index_ok (marker_index (id (mkMarker 0 2 0 30))) = false)
    by reflexivity.
  split; [exact Hin|]. split; [exact Hact|]. split; [exact Hbad|].
  apply (fake_sensor_callback_bad_id _ _ _ _ _ Hin Hact Hbad).
Defined.

(** X14.  With marker id -1 the slot is the robot's own x and y: the two
    accesses are inside the vector, the relative displacement is (0, 0)
    whatever the state and the marker, the squared distance by which the
    Jacobian entries are divided is 0, and the update has no result. *)
Theorem update_id_minus_one_degenerate (state : vec) (covar : mat)
  (marker_x marker_y : R) :
  let i := Z.to_nat (marker_index (-1)) in
  let state1 :=
    init_landmark state i (range_of marker_x marker_y)
      (bearing_of marker_x marker_y) in
  index_ok (marker_index (-1)) = true /\
  i = 1%nat /\
  delta_x state1 i = 0 /\
  delta_y state1 i = 0 /\
  sq_dist state1 i = 0 /\
  EKF_Slam_update state covar marker_x marker_y (-1) = None.
Proof.
  cbv zeta.
  change (Z.to_nat (marker_index (-1))) with 1%nat.
  set (state1 := init_landmark state 1 (range_of marker_x marker_y)
                   (bearing_of marker_x marker_y)).
  assert (Hx : delta_x state1 1 = 0) by (unfold delta_x; ring).
  assert (Hy : delta_y state1 1 = 0) by (unfold delta_y; simpl; ring).
  assert (Hd : sq_dist state1 1 = 0)
    by (unfold sq_dist; rewrite Hx, Hy; ring).
  repeat split; try assumption.
  unfold EKF_Slam_update.
  change (index_ok (marker_index (-1))) with true.
  change (Z.to_nat (marker_index (-1))) with 1%nat.
  cbv iota zeta. fold state1. unfold kalman_step.
  destruct (Req_EM_T (sq_dist state1 1) 0) as [_|Hn];
    [reflexivity|contradiction].
Qed.

(** ** NuSim: the published timestep *)

Lemma wrap64_succ (n : N) :
  NuSim.wrap64 (NuSim.wrap64 n + 1) = NuSim.wrap64 (n + 1).
Proof.
  unfold NuSim.wrap64. apply N.Div0.add_mod_idemp_l.
Qed.

Lemma wrap64_idem (n : N) : NuSim.wrap64 (NuSim.wrap64 n) = NuSim.wrap64 n.
Proof. unfold NuSim.wrap64. apply N.Div0.mod_mod. Qed.

Lemma timer_callback_step (nd : NuSim.node) :
  NuSim.timer_count_ (NuSim.timer_callback nd)
    = NuSim.wrap64 (NuSim.timer_count_ nd + 1) /\
  NuSim.timestep_published (NuSim.timer_callback nd)
    = NuSim.timestep_published nd ++ [NuSim.wrap64 (NuSim.timer_count_ nd)].
Proof. split; reflexivity. Qed.

(** X15.  After [k] runs of [timer_callback] from the constructor's state
    the node has published [k] messages, the one of index [i] carrying [i]
    (modulo 2^64), and the counter stands at [k]; as long as [k] is at most
    2^64 the published values are exactly 0, 1, ..., k-1. *)
Theorem timer_callback_publishes_count (k : nat) :
  let nd := Nat.iter k NuSim.timer_callback NuSim.node_init in
  NuSim.timer_count_ nd = NuSim.wrap64 (N.of_nat k) /\
  NuSim.timestep_published nd
    = map (fun i => NuSim.wrap64 (N.of_nat i)) (seq 0 k) /\
  length (NuSim.timestep_published nd) = k /\
  ((N.of_nat k <= 2 ^ 64)%N ->
   NuSim.timestep_published nd = map N.of_nat (seq 0 k)).
Proof.
  cbv zeta.
  assert (H : NuSim.timer_count_
                (Nat.iter k NuSim.timer_callback NuSim.node_init)
              = NuSim.wrap64 (N.of_nat k) /\
              NuSim.timestep_published
                (Nat.iter k NuSim.timer_callback NuSim.node_init)
              = map (fun i => NuSim.wrap64 (N.of_nat i)) (seq 0 k)).
  { induction k as [|k [IHc IHp]].
    - split; reflexivity.
    - rewrite Nat.iter_succ.
      destruct (timer_callback_step
                  (Nat.iter k NuSim.timer_callback NuSim.node_init))
        as [-> ->].
      rewrite IHc, IHp. split.
      + rewrite wrap64_succ. f_equal. lia.
      + rewrite wrap64_idem, seq_S, map_app. reflexivity. }
  destruct H as [Hc Hp].
  split; [exact Hc|]. split; [exact Hp|]. split.
  - rewrite Hp, length_map, length_seq. reflexivity.
  - intro Hk. rewrite Hp. apply map_ext_in.
    intros i Hi. apply in_seq in Hi.
    unfold NuSim.wrap64. apply N.mod_small. lia.
Qed.

(** Three ticks: 0, 1, 2 published, counter at 3. *)
Lemma timer_callback_publishes_count_witness :
  (N.of_nat 3 <= 2 ^ 64)%N /\
  NuSim.timestep_published
    (Nat.iter 3 NuSim.timer_callback NuSim.node_init)
  = map N.of_nat (seq 0 3).
Proof.
  assert (H : (N.of_nat 3 <= 2 ^ 64)%N) by (vm_compute; discriminate).
  split; [exact H|].
  exact (proj2 (proj2 (proj2 (timer_callback_publishes_count 3))) H).
Defined.
